(** * exws: a websocket fan-out hub and its snapshot producer

    A shallow embedding of the two variants of the program,
    [src/main.go] (registration through the dispatcher's [register] channel)
    and [src/unnamed/part_000] (registration by the connection handler itself,
    after reading a client identifier), followed by the properties of the
    registry, of the broadcast pass and of the producer's arithmetic. *)

From Stdlib Require Import ZArith.
From Stdlib Require Import Floats.SpecFloat.
From stdpp Require Import gmap strings list fin_maps.

Set Default Proof Using "Type".

(** ** float64

    Go's [float64] is IEEE-754 binary64.  The operations are the ones of the
    Standard Library's executable specification of binary floating point,
    at precision 53 and maximal exponent 1024, each rounding to nearest even.
    Every operation of the source is rounded on its own (no fused
    multiply-add). *)

Module F64.

Definition prec : Z := 53.
Definition emax : Z := 1024.

Definition add : spec_float → spec_float → spec_float := SFadd prec emax.
Definition sub : spec_float → spec_float → spec_float := SFsub prec emax.
Definition mul : spec_float → spec_float → spec_float := SFmul prec emax.
Definition div : spec_float → spec_float → spec_float := SFdiv prec emax.

(** The float64 of an integer constant. *)
Definition of_Z (z : Z) : spec_float := binary_normalize prec emax z 0 false.

(** The float64 a decimal literal [n/d] denotes: the quotient of two exactly
    represented integers, rounded once. *)
Definition lit (n d : Z) : spec_float := div (of_Z n) (of_Z d).

(** [x = ±m·2^e] lies strictly within [1/tol] of the rational [n/d]
    ([d], [tol] positive); decided over the integers. *)
Definition within (x : spec_float) (n d tol : Z) : bool :=
  match x with
  | S754_finite s m e =>
      let v := if s then Z.neg m else Z.pos m in
      if (0 <=? e)%Z
      then (Z.abs (v * 2 ^ e * d - n) * tol <? d)%Z
      else (Z.abs (v * d - n * 2 ^ (- e)) * tol <? d * 2 ^ (- e))%Z
  | S754_zero _ => (Z.abs n * tol <? d)%Z
  | _ => false
  end.

End F64.

Abbreviation float64 := spec_float.

(** ** Snapshot

    [decimal.Decimal] belongs to an external library and the program performs
    no arithmetic on it: a [Decimal] is created by [decimal.NewFromFloat] and
    handed to the JSON encoder.  It is represented by the float64 it was
    converted from. *)

Inductive Decimal : Type :=
  NewFromFloat (value : float64).

Definition value (d : Decimal) : float64 :=
  match d with NewFromFloat v => v end.

Record Asset : Type := mkAsset {
  Balance : Decimal;
  Pnl : Decimal;
  Margin : Decimal;
  CanTransfer : Decimal
}.

(** ** Producer: [simulatePriceUpdate]

    The four variables declared before the loop. *)

Record Producer : Type := mkProducer {
  previousPrice : float64;
  balance : float64;
  amount : float64;
  lockBalance : float64
}.

Definition producer_init : Producer :=
  let amount := F64.lit 888 10 in
  {| previousPrice := F64.of_Z 100;
     balance := F64.lit 268005 10;
     amount := amount;
     lockBalance := F64.mul (F64.of_Z 100) amount |}.

(** [(rand.Float64()-0.5)/100] for a draw [r]. *)
Definition delta (r : float64) : float64 :=
  F64.div (F64.sub r (F64.lit 1 2)) (F64.of_Z 100).

(** [previousPrice * (1 + d)]. *)
Definition perturb (p : Producer) (d : float64) : float64 :=
  F64.mul (previousPrice p) (F64.add (F64.of_Z 1) d).

(** The [Asset] literal of the loop body for a given [newPrice]. *)
Definition snapshot (p : Producer) (newPrice : float64) : Asset :=
  let pnl := F64.mul (F64.sub newPrice (previousPrice p)) (amount p) in
  {| Balance := NewFromFloat (balance p);
     Pnl := NewFromFloat pnl;
     Margin := NewFromFloat (F64.sub (balance p) pnl);
     CanTransfer :=
       NewFromFloat (F64.sub (F64.sub (balance p) pnl) (lockBalance p)) |}.

(** One iteration of the loop, [r] being the value of [rand.Float64()]:
    the variables after the iteration and the asset sent on [broadcast].
    The body assigns none of the four variables. *)
Definition tick (p : Producer) (r : float64) : Producer * Asset :=
  let newPrice := perturb p (delta r) in
  (p, snapshot p newPrice).

(** The loop run for one draw per iteration: the final variables and the
    assets sent, in order. *)
Fixpoint simulatePriceUpdate (p : Producer) (rs : list float64)
  : Producer * list Asset :=
  match rs with
  | [] => (p, [])
  | r :: rs =>
      let '(p1, a) := tick p r in
      let '(p2, sent) := simulatePriceUpdate p1 rs in
      (p2, a :: sent)
  end.

(** ** The hub's shared state

    A connection is known by the identity of its [*websocket.Conn]. *)

Abbreviation WsConn := nat.

(** The log statements of the two variants. *)
Inductive LogLine : Type :=
| LogNewClient (total : nat)
| LogDisconnected (total : nat)
| LogUUIDDisconnected (uuid : string)
| LogWriteError (uuid : option string)
| LogReadUUIDError
| LogConnectedUUID (uuid : string).

(** Who called [conn.Close()]: the dispatcher ([ClientManager.start]) or the
    handler's deferred call. *)
Inductive Closer : Type := ByHub | ByHandler.

Global Instance Closer_eq_dec : EqDecision Closer.
Proof. solve_decision. Defined.

(** What the program does to the outside and to the registry, in the order
    it happens. *)
Inductive Event : Type :=
| EvReadUUID (c : WsConn) (r : option string)
| EvInsert (c : WsConn)
| EvDelete (c : WsConn)
| EvClose (who : Closer) (c : WsConn)
| EvWrite (c : WsConn) (a : Asset) (err : bool)
| EvLog (l : LogLine).

(** [ClientManager]: the registry and its mutex.  The three channels are
    unbuffered and carry no state of their own; [effects] records the
    events so far, oldest first. *)
Record ClientManager (V : Type) : Type := mkManager {
  clients : gmap WsConn V;
  mutex : bool;
  effects : list Event
}.
Arguments mkManager {V}.
Arguments clients {V}.
Arguments mutex {V}.
Arguments effects {V}.

(** What travels on the three channels, and who sends. *)
Inductive Msg : Type :=
| MRegister (c : WsConn)
| MUnregister (c : WsConn)
| MBroadcast (a : Asset).

Inductive Sender : Type :=
| FromHandler (c : WsConn)
| FromProducer.

(** ** Executions

    The program is a set of goroutines: [ClientManager.start] (the
    dispatcher), [simulatePriceUpdate] (the producer) and one
    [handleConnections] per accepted connection.  An execution is a
    sequence of scheduling decisions, each letting one goroutine execute one
    statement from its program point; a send on an unbuffered channel and
    the dispatcher's [select] that receives it are one joint step.  What the
    outside decides (the result of a read or of a write, the order in which
    [range] visits the map, the random draw) comes with the decision. *)

(** What the environment answers to the statement being executed. *)
Inductive Outcome : Type :=
| Plain
| ReadJSON (r : option string)
| ReadMessage (err : bool)
| WriteJSON (err : bool)
| Range (order : list WsConn).

(** One scheduling decision. *)
Inductive Action : Type :=
| Accept (c : WsConn)
| Handler (c : WsConn) (o : Outcome)
| Dispatcher (o : Outcome)
| Select (from : Sender)
| Produce (r : float64)
| Wake.

(** Program points of the producer: before the loop body, blocked on
    [manager.broadcast <- asset], asleep. *)
Inductive ppc : Type :=
| PCompute
| PSend (a : Asset)
| PSleep.

Section Hub.
Context {V : Type}.
(** The line logged on a failed write and the lines logged when an entry
    is unregistered: they differ between the variants. *)
Variable write_error : V → LogLine.
Variable disconnecting : V → list LogLine.

Definition emit (evs : list Event) (m : ClientManager V) : ClientManager V :=
  {| clients := clients m; mutex := mutex m; effects := effects m ++ evs |}.

(** [mutex.Lock()]: [None] while the mutex is held (the caller blocks). *)
Definition Lock (m : ClientManager V) : option (ClientManager V) :=
  if mutex m then None
  else Some {| clients := clients m; mutex := true; effects := effects m |}.

Definition Unlock (m : ClientManager V) : ClientManager V :=
  {| clients := clients m; mutex := false; effects := effects m |}.

(** [clients[conn] = v] *)
Definition insert_client (c : WsConn) (v : V) (m : ClientManager V)
  : ClientManager V :=
  {| clients := <[c := v]> (clients m); mutex := mutex m;
     effects := effects m ++ [EvInsert c] |}.

(** [delete(clients, conn); conn.Close()] *)
Definition delete_and_close (c : WsConn) (m : ClientManager V) : ClientManager V :=
  {| clients := delete c (clients m); mutex := mutex m;
     effects := effects m ++ [EvDelete c; EvClose ByHub c] |}.

(** The guarded body of the [unregister] branch. *)
Definition unregister_body (c : WsConn) (m : ClientManager V)
  : ClientManager V :=
  match clients m !! c with
  | Some v => delete_and_close c (emit (EvLog <$> disconnecting v) m)
  | None => m
  end.

(** The body of the broadcast loop for the entry [(c, v)], [err] telling
    whether [conn.WriteJSON(asset)] returned an error. *)
Definition write_or_drop (err : bool) (a : Asset) (c : WsConn) (v : V)
    (m : ClientManager V) : ClientManager V :=
  if err
  then delete_and_close c (emit [EvWrite c a true; EvLog (write_error v)] m)
  else emit [EvWrite c a false] m.

(** One iteration of [for conn := range clients]: an entry removed before
    the iteration reaches it is not produced. *)
Definition range_body (err : bool) (a : Asset) (c : WsConn)
    (m : ClientManager V) : ClientManager V :=
  match clients m !! c with
  | Some v => write_or_drop err a c v m
  | None => m
  end.

(** The whole loop, visiting the keys in [order], [werr c] telling whether
    the write to [c] fails. *)
Definition broadcast_pass (werr : WsConn → bool) (a : Asset)
    (order : list WsConn) (m : ClientManager V) : ClientManager V :=
  foldl (λ m c, range_body (werr c) a c m) m order.

(** [range] visits every key of the map once, in some order. *)
Definition range_order (m : ClientManager V) (order : list WsConn) : Prop :=
  NoDup order ∧ list_to_set order =@{gset WsConn} dom (clients m).

Global Instance range_order_dec m order : Decision (range_order m order).
Proof. unfold range_order. apply _. Defined.

End Hub.

(** Projections of a trace. *)
Definition writes (tr : list Event) : list (WsConn * Asset * bool) :=
  omap (λ e, match e with EvWrite c a err => Some (c, a, err) | _ => None end) tr.

Definition closes (who : Closer) (tr : list Event) : list WsConn :=
  omap (λ e, match e with
             | EvClose w c => if decide (w = who) then Some c else None
             | _ => None
             end) tr.

Definition deletes (tr : list Event) : list WsConn :=
  omap (λ e, match e with EvDelete c => Some c | _ => None end) tr.

Definition inserts (tr : list Event) : list WsConn :=
  omap (λ e, match e with EvInsert c => Some c | _ => None end) tr.

Definition uuid_reads (tr : list Event) : list (WsConn * option string) :=
  omap (λ e, match e with EvReadUUID c r => Some (c, r) | _ => None end) tr.

Definition logs (tr : list Event) : list LogLine :=
  omap (λ e, match e with EvLog l => Some l | _ => None end) tr.

(** How often [c] occurs in a list of connections. *)
Definition times (c : WsConn) (l : list WsConn) : nat :=
  length (filter (λ x, x = c) l).
Global Arguments times : simpl never.

(** Every [conn.Close()], whoever calls it. *)
Definition all_closes (tr : list Event) : list WsConn :=
  omap (λ e, match e with EvClose _ c => Some c | _ => None end) tr.

(** The results of the identifier reads of the connection [c]. *)
Definition uuid_of (c : WsConn) (tr : list Event) : list (option string) :=
  omap (λ e, match e with
             | EvReadUUID c' r => if decide (c' = c) then Some r else None
             | _ => None
             end) tr.

(** Every close by the hub comes directly after the removal of the same
    connection from the registry. *)
Definition closes_follow_deletes (tr : list Event) : Prop :=
  ∀ pre c post, tr = pre ++ EvClose ByHub c :: post →
    ∃ pre', pre = pre' ++ [EvDelete c].

(** An asset built by the loop body from the initial variables, for some
    draw. *)
Definition from_baseline (a : Asset) : Prop :=
  ∃ r, a = snapshot producer_init (perturb producer_init (delta r)).

(** ** The variant of [src/unnamed/part_000]

    The handler reads the client identifier, then stores the entry itself
    under the mutex; the dispatcher's [register] branch only logs. *)

Module Part000.

Record Client : Type := mkClient {
  Conn : WsConn;
  UUID : string
}.

(** Program points of [handleConnections] after a successful upgrade
    (line numbers of [part_000]). *)
Inductive hpc : Type :=
| HReadUUID                (* 95: conn.ReadJSON(&uuid) *)
| HAborted                 (* 98: returned, the deferred Close has run *)
| HLock (uuid : string)    (* 102: manager.mutex.Lock() *)
| HInsert (uuid : string)  (* 103: manager.clients[conn] = Client{...} *)
| HUnlock (uuid : string)  (* 104-106: Unlock, log *)
| HRead                    (* 109: conn.ReadMessage() *)
| HSendUnreg               (* 111: manager.unregister <- conn *)
| HBreak                   (* 112: break; the deferred Close is pending *)
| HDone.                   (* returned, the deferred Close has run *)

(** Program points of [ClientManager.start]. *)
Inductive dpc : Type :=
| DSelect                                      (* 56 *)
| DRegLog                                      (* 59 *)
| DUnregLock (c : WsConn)                      (* 62 *)
| DUnregBody (c : WsConn)                      (* 63-67 *)
| DUnregUnlock                                 (* 68 *)
| DUnregLog                                    (* 69 *)
| DBcastLock (a : Asset)                       (* 71 *)
| DBcastRange (a : Asset)                      (* 72: the range starts *)
| DBcastLoop (a : Asset) (todo : list WsConn). (* 72-79; 80 when done *)

Record State : Type := mkState {
  manager : ClientManager Client;
  dispatcher : dpc;
  handlers : gmap WsConn hpc;
  producer_pc : ppc;
  producer : Producer
}.

Definition init : State :=
  {| manager := mkManager ∅ false [];
     dispatcher := DSelect;
     handlers := ∅;
     producer_pc := PCompute;
     producer := producer_init |}.

Definition set_manager (m : ClientManager Client) (s : State) : State :=
  mkState m (dispatcher s) (handlers s) (producer_pc s) (producer s).
Definition set_dispatcher (d : dpc) (s : State) : State :=
  mkState (manager s) d (handlers s) (producer_pc s) (producer s).
Definition set_handler (c : WsConn) (pc : hpc) (s : State) : State :=
  mkState (manager s) (dispatcher s) (<[c := pc]> (handlers s))
          (producer_pc s) (producer s).
Definition set_producer (pc : ppc) (p : Producer) (s : State) : State :=
  mkState (manager s) (dispatcher s) (handlers s) pc p.

Definition write_error (cl : Client) : LogLine := LogWriteError (Some (UUID cl)).
Definition disconnecting (cl : Client) : list LogLine :=
  [LogUUIDDisconnected (UUID cl)].

(** The channel send a handler is blocked on, if any, and where it goes on
    once the dispatcher has received.  No statement of the handler sends
    on [register]. *)
Definition offer (c : WsConn) (pc : hpc) : option (Msg * hpc) :=
  match pc with
  | HSendUnreg => Some (MUnregister c, HBreak)
  | _ => None
  end.

(** The branch of the [select] a received message enters. *)
Definition receive (m : Msg) : dpc :=
  match m with
  | MRegister _ => DRegLog
  | MUnregister c => DUnregLock c
  | MBroadcast a => DBcastLock a
  end.

(** One statement of [handleConnections] for the connection [c], from the
    program point [pc]. *)
Definition handleConnections (c : WsConn) (pc : hpc) (o : Outcome) (s : State)
  : option State :=
  match pc, o with
  | HReadUUID, ReadJSON (Some u) =>
      Some (set_handler c (HLock u)
              (set_manager (emit [EvReadUUID c (Some u)] (manager s)) s))
  | HReadUUID, ReadJSON None =>
      Some (set_handler c HAborted
              (set_manager
                 (emit [EvReadUUID c None; EvLog LogReadUUIDError;
                        EvClose ByHandler c] (manager s)) s))
  | HLock u, Plain =>
      m ← Lock (manager s);
      Some (set_handler c (HInsert u) (set_manager m s))
  | HInsert u, Plain =>
      Some (set_handler c (HUnlock u)
              (set_manager (insert_client c (mkClient c u) (manager s)) s))
  | HUnlock u, Plain =>
      Some (set_handler c HRead
              (set_manager
                 (emit [EvLog (LogConnectedUUID u)] (Unlock (manager s))) s))
  | HRead, ReadMessage false => Some s
  | HRead, ReadMessage true => Some (set_handler c HSendUnreg s)
  | HBreak, Plain =>
      Some (set_handler c HDone
              (set_manager (emit [EvClose ByHandler c] (manager s)) s))
  | _, _ => None
  end.

(** One statement of [ClientManager.start] after its [select]. *)
Definition start (o : Outcome) (s : State) : option State :=
  let m := manager s in
  match dispatcher s, o with
  | DRegLog, Plain =>
      Some (set_dispatcher DSelect
              (set_manager
                 (emit [EvLog (LogNewClient (size (clients m)))] m) s))
  | DUnregLock c, Plain =>
      m' ← Lock m; Some (set_dispatcher (DUnregBody c) (set_manager m' s))
  | DUnregBody c, Plain =>
      Some (set_dispatcher DUnregUnlock
              (set_manager (unregister_body disconnecting c m) s))
  | DUnregUnlock, Plain =>
      Some (set_dispatcher DUnregLog (set_manager (Unlock m) s))
  | DUnregLog, Plain =>
      Some (set_dispatcher DSelect
              (set_manager
                 (emit [EvLog (LogDisconnected (size (clients m)))] m) s))
  | DBcastLock a, Plain =>
      m' ← Lock m; Some (set_dispatcher (DBcastRange a) (set_manager m' s))
  | DBcastRange a, Range order =>
      if decide (range_order m order)
      then Some (set_dispatcher (DBcastLoop a order) s)
      else None
  | DBcastLoop a (c :: todo), WriteJSON err =>
      Some (set_dispatcher (DBcastLoop a todo)
              (set_manager (range_body write_error err a c m) s))
  | DBcastLoop a [], Plain =>
      Some (set_dispatcher DSelect (set_manager (Unlock m) s))
  | _, _ => None
  end.

(** The effect of one scheduling decision; [None] when it is not enabled. *)
Definition exec (act : Action) (s : State) : option State :=
  match act with
  | Accept c =>
      match handlers s !! c with
      | None => Some (set_handler c HReadUUID s)
      | Some _ => None
      end
  | Handler c o => pc ← handlers s !! c; handleConnections c pc o s
  | Dispatcher o => start o s
  | Select (FromHandler c) =>
      match dispatcher s with
      | DSelect =>
          pc ← handlers s !! c;
          '(msg, pc') ← offer c pc;
          Some (set_dispatcher (receive msg) (set_handler c pc' s))
      | _ => None
      end
  | Select FromProducer =>
      match dispatcher s, producer_pc s with
      | DSelect, PSend a =>
          Some (set_dispatcher (receive (MBroadcast a))
                  (set_producer PSleep (producer s) s))
      | _, _ => None
      end
  | Produce r =>
      match producer_pc s with
      | PCompute =>
          let '(p, a) := tick (producer s) r in
          Some (set_producer (PSend a) p s)
      | _ => None
      end
  | Wake =>
      match producer_pc s with
      | PSleep => Some (set_producer PCompute (producer s) s)
      | _ => None
      end
  end.

Fixpoint run (acts : list Action) (s : State) : option State :=
  match acts with
  | [] => Some s
  | act :: acts => s' ← exec act s; run acts s'
  end.

Definition reachable (s : State) : Prop := ∃ acts, run acts init = Some s.

(** Threads inside a critical section of the mutex. *)
Definition handler_in_cs (pc : hpc) : bool :=
  match pc with HInsert _ | HUnlock _ => true | _ => false end.
Definition dispatcher_in_cs (d : dpc) : bool :=
  match d with
  | DUnregBody _ | DUnregUnlock | DBcastRange _ | DBcastLoop _ _ => true
  | _ => false
  end.
Definition pass_in_progress (d : dpc) : bool :=
  match d with DBcastRange _ | DBcastLoop _ _ => true | _ => false end.

Definition no_handler_in_cs (s : State) : Prop :=
  ∀ c pc, handlers s !! c = Some pc → handler_in_cs pc = false.

(** Mutual exclusion: a free mutex means nobody is in a critical section,
    and at most one thread is in one. *)
Definition mutex_inv (s : State) : Prop :=
  (mutex (manager s) = false →
     dispatcher_in_cs (dispatcher s) = false ∧ no_handler_in_cs s) ∧
  (dispatcher_in_cs (dispatcher s) = true → no_handler_in_cs s) ∧
  (∀ c c' pc pc', handlers s !! c = Some pc → handlers s !! c' = Some pc' →
     handler_in_cs pc = true → handler_in_cs pc' = true → c = c').

(** The thread that performs [act] is inside a critical section. *)
Definition actor_in_cs (act : Action) (s : State) : Prop :=
  match act with
  | Handler c _ => ∃ pc, handlers s !! c = Some pc ∧ handler_in_cs pc = true
  | Dispatcher _ => dispatcher_in_cs (dispatcher s) = true
  | _ => False
  end.

(** Line 103 has been executed by the handler. *)
Definition stored (pc : option hpc) : bool :=
  match pc with
  | Some (HUnlock _ | HRead | HSendUnreg | HBreak | HDone) => true
  | _ => false
  end.
(** The handler has returned (and its deferred [Close] has run). *)
Definition returned (pc : option hpc) : bool :=
  match pc with Some (HAborted | HDone) => true | _ => false end.
(** What the handler's program point says about its identifier read. *)
Definition uuid_known (pc : option hpc) (rs : list (option string)) : Prop :=
  match pc with
  | None | Some HReadUUID => rs = []
  | Some HAborted => rs = [None]
  | Some (HLock u | HInsert u | HUnlock u) => rs = [Some u]
  | Some _ => ∃ u, rs = [Some u]
  end.

(** The bookkeeping of one connection. *)
Definition conn_inv (s : State) (c : WsConn) : Prop :=
  let tr := effects (manager s) in
  let pc := handlers s !! c in
  times c (inserts tr) = (if stored pc then 1 else 0) ∧
  times c (closes ByHub tr) = times c (deletes tr) ∧
  times c (closes ByHub tr) ≤ times c (inserts tr) ∧
  (is_Some (clients (manager s) !! c)
     ↔ times c (inserts tr) = 1 ∧ times c (closes ByHub tr) = 0) ∧
  times c (closes ByHandler tr) = (if returned pc then 1 else 0) ∧
  uuid_known pc (uuid_of c tr) ∧
  (∀ cl, clients (manager s) !! c = Some cl →
         ∃ u, uuid_of c tr = [Some u] ∧ cl = mkClient c u).

(** The [register] branch has never been entered. *)
Definition register_unused (s : State) : Prop :=
  dispatcher s ≠ DRegLog ∧ ∀ n, LogNewClient n ∉ logs (effects (manager s)).

(** The asset the dispatcher is broadcasting. *)
Definition carried (d : dpc) : option Asset :=
  match d with
  | DBcastLock a | DBcastRange a | DBcastLoop a _ => Some a
  | _ => None
  end.

Definition producer_inv (s : State) : Prop :=
  producer s = producer_init ∧
  (∀ a, producer_pc s = PSend a → from_baseline a) ∧
  (∀ a, carried (dispatcher s) = Some a → from_baseline a) ∧
  (∀ c a err, (c, a, err) ∈ writes (effects (manager s)) → from_baseline a).

End Part000.

(** ** The variant of [src/main.go]

    The handler sends the connection on [register]; the dispatcher stores
    it.  The handler's read loop has no exit. *)

Module MainGo.

(** Program points of [handleConnections] after a successful upgrade
    (line numbers of [main.go]). *)
Inductive hpc : Type :=
| HSendReg     (* 94: manager.register <- conn *)
| HRead        (* 97: conn.ReadMessage() *)
| HSendUnreg.  (* 99: manager.unregister <- conn *)

(** Program points of [ClientManager.start]. *)
Inductive dpc : Type :=
| DSelect                                      (* 51 *)
| DRegLock (c : WsConn)                        (* 53 *)
| DRegInsert (c : WsConn)                      (* 54 *)
| DRegUnlock                                   (* 55 *)
| DRegLog                                      (* 56 *)
| DUnregLock (c : WsConn)                      (* 58 *)
| DUnregBody (c : WsConn)                      (* 59-62 *)
| DUnregLog                                    (* 63 *)
| DBcastLock (a : Asset)                       (* 65 *)
| DBcastRange (a : Asset)                      (* 66: the range starts *)
| DBcastLoop (a : Asset) (todo : list WsConn). (* 66-72; 73 when done *)

Record State : Type := mkState {
  manager : ClientManager bool;
  dispatcher : dpc;
  handlers : gmap WsConn hpc;
  producer_pc : ppc;
  producer : Producer
}.

Definition init : State :=
  {| manager := mkManager ∅ false [];
     dispatcher := DSelect;
     handlers := ∅;
     producer_pc := PCompute;
     producer := producer_init |}.

Definition set_manager (m : ClientManager bool) (s : State) : State :=
  mkState m (dispatcher s) (handlers s) (producer_pc s) (producer s).
Definition set_dispatcher (d : dpc) (s : State) : State :=
  mkState (manager s) d (handlers s) (producer_pc s) (producer s).
Definition set_handler (c : WsConn) (pc : hpc) (s : State) : State :=
  mkState (manager s) (dispatcher s) (<[c := pc]> (handlers s))
          (producer_pc s) (producer s).
Definition set_producer (pc : ppc) (p : Producer) (s : State) : State :=
  mkState (manager s) (dispatcher s) (handlers s) pc p.

Definition write_error (_ : bool) : LogLine := LogWriteError None.
Definition disconnecting (_ : bool) : list LogLine := [].

(** The channel send a handler is blocked on, if any, and where it goes on
    once the dispatcher has received: after [unregister] the loop reads
    again. *)
Definition offer (c : WsConn) (pc : hpc) : option (Msg * hpc) :=
  match pc with
  | HSendReg => Some (MRegister c, HRead)
  | HSendUnreg => Some (MUnregister c, HRead)
  | HRead => None
  end.

Definition receive (m : Msg) : dpc :=
  match m with
  | MRegister c => DRegLock c
  | MUnregister c => DUnregLock c
  | MBroadcast a => DBcastLock a
  end.

(** One statement of [handleConnections] for the connection [c], from the
    program point [pc]. *)
Definition handleConnections (c : WsConn) (pc : hpc) (o : Outcome) (s : State)
  : option State :=
  match pc, o with
  | HRead, ReadMessage false => Some s
  | HRead, ReadMessage true => Some (set_handler c HSendUnreg s)
  | _, _ => None
  end.

(** One statement of [ClientManager.start] after its [select].  The
    [unregister] branch goes from its body to the log statement: it has no
    [Unlock]. *)
Definition start (o : Outcome) (s : State) : option State :=
  let m := manager s in
  match dispatcher s, o with
  | DRegLock c, Plain =>
      m' ← Lock m; Some (set_dispatcher (DRegInsert c) (set_manager m' s))
  | DRegInsert c, Plain =>
      Some (set_dispatcher DRegUnlock
              (set_manager (insert_client c true m) s))
  | DRegUnlock, Plain =>
      Some (set_dispatcher DRegLog (set_manager (Unlock m) s))
  | DRegLog, Plain =>
      Some (set_dispatcher DSelect
              (set_manager
                 (emit [EvLog (LogNewClient (size (clients m)))] m) s))
  | DUnregLock c, Plain =>
      m' ← Lock m; Some (set_dispatcher (DUnregBody c) (set_manager m' s))
  | DUnregBody c, Plain =>
      Some (set_dispatcher DUnregLog
              (set_manager (unregister_body disconnecting c m) s))
  | DUnregLog, Plain =>
      Some (set_dispatcher DSelect
              (set_manager
                 (emit [EvLog (LogDisconnected (size (clients m)))] m) s))
  | DBcastLock a, Plain =>
      m' ← Lock m; Some (set_dispatcher (DBcastRange a) (set_manager m' s))
  | DBcastRange a, Range order =>
      if decide (range_order m order)
      then Some (set_dispatcher (DBcastLoop a order) s)
      else None
  | DBcastLoop a (c :: todo), WriteJSON err =>
      Some (set_dispatcher (DBcastLoop a todo)
              (set_manager (range_body write_error err a c m) s))
  | DBcastLoop a [], Plain =>
      Some (set_dispatcher DSelect (set_manager (Unlock m) s))
  | _, _ => None
  end.

(** The effect of one scheduling decision; [None] when it is not enabled. *)
Definition exec (act : Action) (s : State) : option State :=
  match act with
  | Accept c =>
      match handlers s !! c with
      | None => Some (set_handler c HSendReg s)
      | Some _ => None
      end
  | Handler c o => pc ← handlers s !! c; handleConnections c pc o s
  | Dispatcher o => start o s
  | Select (FromHandler c) =>
      match dispatcher s with
      | DSelect =>
          pc ← handlers s !! c;
          '(msg, pc') ← offer c pc;
          Some (set_dispatcher (receive msg) (set_handler c pc' s))
      | _ => None
      end
  | Select FromProducer =>
      match dispatcher s, producer_pc s with
      | DSelect, PSend a =>
          Some (set_dispatcher (receive (MBroadcast a))
                  (set_producer PSleep (producer s) s))
      | _, _ => None
      end
  | Produce r =>
      match producer_pc s with
      | PCompute =>
          let '(p, a) := tick (producer s) r in
          Some (set_producer (PSend a) p s)
      | _ => None
      end
  | Wake =>
      match producer_pc s with
      | PSleep => Some (set_producer PCompute (producer s) s)
      | _ => None
      end
  end.

Fixpoint run (acts : list Action) (s : State) : option State :=
  match acts with
  | [] => Some s
  | act :: acts => s' ← exec act s; run acts s'
  end.

Definition reachable (s : State) : Prop := ∃ acts, run acts init = Some s.

(** The dispatcher is the only thread that touches the mutex; these are
    its program points between a [Lock] and the statement that should
    release it. *)
Definition dispatcher_in_cs (d : dpc) : bool :=
  match d with
  | DRegInsert _ | DRegUnlock | DUnregBody _ | DBcastRange _
  | DBcastLoop _ _ => true
  | _ => false
  end.
Definition pass_in_progress (d : dpc) : bool :=
  match d with DBcastRange _ | DBcastLoop _ _ => true | _ => false end.

(** The dispatcher is blocked on [Lock] for good. *)
Definition at_lock (d : dpc) : bool :=
  match d with DRegLock _ | DUnregLock _ | DBcastLock _ => true | _ => false end.

(** The connection the dispatcher has received on [register] and not yet
    stored. *)
Definition registering (d : dpc) : option WsConn :=
  match d with DRegLock c | DRegInsert c => Some c | _ => None end.

(** The handler's send on [register] has been received. *)
Definition sent (pc : option hpc) : bool :=
  match pc with Some (HRead | HSendUnreg) => true | _ => false end.

(** Line 54 has been executed for the connection. *)
Definition stored (s : State) (c : WsConn) : bool :=
  sent (handlers s !! c)
  && negb (bool_decide (registering (dispatcher s) = Some c)).

(** The bookkeeping of one connection. *)
Definition conn_inv (s : State) (c : WsConn) : Prop :=
  let tr := effects (manager s) in
  (registering (dispatcher s) = Some c → sent (handlers s !! c) = true) ∧
  times c (inserts tr) = (if stored s c then 1 else 0) ∧
  times c (closes ByHub tr) = times c (deletes tr) ∧
  times c (closes ByHub tr) ≤ times c (inserts tr) ∧
  (is_Some (clients (manager s) !! c)
     ↔ times c (inserts tr) = 1 ∧ times c (closes ByHub tr) = 0) ∧
  times c (closes ByHandler tr) = 0.

(** The asset the dispatcher is broadcasting. *)
Definition carried (d : dpc) : option Asset :=
  match d with
  | DBcastLock a | DBcastRange a | DBcastLoop a _ => Some a
  | _ => None
  end.

Definition producer_inv (s : State) : Prop :=
  producer s = producer_init ∧
  (∀ a, producer_pc s = PSend a → from_baseline a) ∧
  (∀ a, carried (dispatcher s) = Some a → from_baseline a) ∧
  (∀ c a err, (c, a, err) ∈ writes (effects (manager s)) → from_baseline a).

End MainGo.

(** ** The end-to-end scenario and some concrete executions *)

(** The draw [0.7], for which [(0.7 - 0.5) / 100] is the relative change
    of +0.2%. *)
Definition draw_plus_02_percent : float64 := F64.lit 7 10.

(** The four values the scenario expects, as float64 literals. *)
Definition end_to_end_expected (newPrice : float64) (a : Asset) : Prop :=
  newPrice = F64.lit 1002 10 ∧
  Pnl a = NewFromFloat (F64.lit 1776 100) ∧
  Margin a = NewFromFloat (F64.lit 2678274 100) ∧
  CanTransfer a = NewFromFloat (F64.lit 1790274 100).

(** [part_000]: one client connects, sends its identifier, is stored,
    disconnects; its handler returns before the dispatcher handles the
    unregistration. *)
Definition part000_session : list Action :=
  [Accept 1; Handler 1 (ReadJSON (Some "u1")); Handler 1 Plain;
   Handler 1 Plain; Handler 1 Plain; Handler 1 (ReadMessage true);
   Select (FromHandler 1); Handler 1 Plain;
   Dispatcher Plain; Dispatcher Plain; Dispatcher Plain; Dispatcher Plain].

Definition part000_after_session : Part000.State :=
  default Part000.init (Part000.run part000_session Part000.init).

(** [part_000]: a client whose identifier cannot be read. *)
Definition part000_refused : list Action :=
  [Accept 1; Handler 1 (ReadJSON None)].

Definition part000_after_refused : Part000.State :=
  default Part000.init (Part000.run part000_refused Part000.init).

(** [part_000]: a broadcast to a stored client is under way while a second
    client, its identifier read, waits for the mutex. *)
Definition part000_during_pass : list Action :=
  [Accept 1; Handler 1 (ReadJSON (Some "u1")); Handler 1 Plain;
   Handler 1 Plain; Handler 1 Plain;
   Accept 2; Handler 2 (ReadJSON (Some "u2"));
   Produce draw_plus_02_percent; Select FromProducer;
   Dispatcher Plain; Dispatcher (Range [1])].

Definition part000_in_pass : Part000.State :=
  default Part000.init (Part000.run part000_during_pass Part000.init).

(** [main.go]: two clients register, then both disconnect. *)
Definition main_two_disconnects : list Action :=
  [Accept 1; Select (FromHandler 1);
   Dispatcher Plain; Dispatcher Plain; Dispatcher Plain; Dispatcher Plain;
   Accept 2; Select (FromHandler 2);
   Dispatcher Plain; Dispatcher Plain; Dispatcher Plain; Dispatcher Plain;
   Handler 1 (ReadMessage true); Select (FromHandler 1);
   Dispatcher Plain; Dispatcher Plain; Dispatcher Plain;
   Handler 2 (ReadMessage true); Select (FromHandler 2)].

Definition main_after_two_disconnects : MainGo.State :=
  default MainGo.init (MainGo.run main_two_disconnects MainGo.init).

(** [main.go]: two clients register and one snapshot is broadcast, the
    write to the second one failing. *)
Definition main_one_broadcast : list Action :=
  [Accept 1; Select (FromHandler 1);
   Dispatcher Plain; Dispatcher Plain; Dispatcher Plain; Dispatcher Plain;
   Accept 2; Select (FromHandler 2);
   Dispatcher Plain; Dispatcher Plain; Dispatcher Plain; Dispatcher Plain;
   Produce draw_plus_02_percent; Select FromProducer;
   Dispatcher Plain; Dispatcher (Range [2; 1]);
   Dispatcher (WriteJSON true)].

Definition main_in_broadcast : MainGo.State :=
  default MainGo.init (MainGo.run main_one_broadcast MainGo.init).

(** The decisions of one whole pass over [order], [werr] telling which
    writes fail. *)
Definition pass_actions (werr : WsConn → bool) (order : list WsConn)
  : list Action :=
  [Dispatcher Plain; Dispatcher (Range order)]
  ++ ((λ c, Dispatcher (WriteJSON (werr c))) <$> order)
  ++ [Dispatcher Plain].

(** * Properties *)

(** ** Traces *)

Lemma cfd_nil : closes_follow_deletes [].
Proof. intros pre c post H. by destruct pre. Qed.

Lemma cfd_snoc tr e :
  closes_follow_deletes tr →
  (∀ c, e = EvClose ByHub c → ∃ tr', tr = tr' ++ [EvDelete c]) →
  closes_follow_deletes (tr ++ [e]).
Proof.
  intros Htr He pre c post Heq.
  destruct (decide (post = [])) as [->|Hne].
  - apply app_inj_tail in Heq as [-> ->]. by apply He.
  - destruct (exists_last Hne) as (post' & x & ->).
    rewrite app_comm_cons, app_assoc in Heq.
    apply app_inj_tail in Heq as [-> _]. by eapply Htr.
Qed.

Lemma cfd_drop tr c :
  closes_follow_deletes tr →
  closes_follow_deletes (tr ++ [EvDelete c; EvClose ByHub c]).
Proof.
  intros Htr.
  change [EvDelete c; EvClose ByHub c]
    with ([EvDelete c] ++ [EvClose ByHub c]).
  rewrite app_assoc. apply cfd_snoc.
  - apply cfd_snoc; [done|]. intros c' [=].
  - intros c' [= ->]. eauto.
Qed.

Lemma cfd_app_other tr evs :
  closes_follow_deletes tr →
  (∀ c, EvClose ByHub c ∉ evs) →
  closes_follow_deletes (tr ++ evs).
Proof.
  intros Htr. induction evs as [|e evs IH] using rev_ind; intros Hno.
  - by rewrite app_nil_r.
  - rewrite app_assoc. apply cfd_snoc.
    + apply IH. intros c Hc. apply (Hno c). set_solver.
    + intros c ->. exfalso. apply (Hno c). set_solver.
Qed.

Lemma writes_app t1 t2 : writes (t1 ++ t2) = writes t1 ++ writes t2.
Proof. apply omap_app. Qed.
Lemma closes_app w t1 t2 : closes w (t1 ++ t2) = closes w t1 ++ closes w t2.
Proof. apply omap_app. Qed.
Lemma deletes_app t1 t2 : deletes (t1 ++ t2) = deletes t1 ++ deletes t2.
Proof. apply omap_app. Qed.
Lemma inserts_app t1 t2 : inserts (t1 ++ t2) = inserts t1 ++ inserts t2.
Proof. apply omap_app. Qed.
Lemma uuid_reads_app t1 t2 : uuid_reads (t1 ++ t2) = uuid_reads t1 ++ uuid_reads t2.
Proof. apply omap_app. Qed.
Lemma logs_app t1 t2 : logs (t1 ++ t2) = logs t1 ++ logs t2.
Proof. apply omap_app. Qed.
Lemma times_app c l1 l2 : times c (l1 ++ l2) = times c l1 + times c l2.
Proof. unfold times. by rewrite filter_app, length_app. Qed.

(** ** The broadcast loop *)

Section HubFacts.
Context {V : Type}.
Variable write_error : V → LogLine.
Implicit Types m : ClientManager V.

Lemma broadcast_pass_snoc werr a order c m :
  broadcast_pass write_error werr a (order ++ [c]) m
  = range_body write_error (werr c) a c (broadcast_pass write_error werr a order m).
Proof. unfold broadcast_pass. by rewrite foldl_snoc. Qed.

(** The loop on any duplicate-free list of registered connections. *)
Lemma broadcast_pass_spec werr a order m :
  NoDup order →
  (∀ c, c ∈ order → is_Some (clients m !! c)) →
  let m' := broadcast_pass write_error werr a order m in
  mutex m' = mutex m ∧
  (∀ c, clients m' !! c
        = if decide (c ∈ order ∧ werr c = true) then None else clients m !! c) ∧
  ∃ evs, effects m' = effects m ++ evs
    ∧ writes evs = (λ c, (c, a, werr c)) <$> order
    ∧ deletes evs = filter (λ c, werr c = true) order
    ∧ closes ByHub evs = filter (λ c, werr c = true) order
    ∧ closes ByHandler evs = []
    ∧ inserts evs = []
    ∧ closes_follow_deletes evs.
Proof.
  induction order as [|c order IH] using rev_ind; intros Hnd Hin; simpl.
  - split; [done|]. split.
    + done.
    + exists []. rewrite app_nil_r. repeat split; auto using cfd_nil.
  - apply NoDup_app in Hnd as (Hnd & Hc & _).
    destruct IH as (Hmx & Hlk & evs & Hev & Hw & Hd & Hcl & Hch & Hi & Hcfd);
      [done| intros; apply Hin; set_solver |].
    rewrite broadcast_pass_snoc.
    set (m1 := broadcast_pass write_error werr a order m) in *.
    assert (Hpres : clients m1 !! c = clients m !! c).
    { rewrite Hlk. rewrite decide_False; [done|]. intros [H _].
      eapply Hc; [done|]. set_solver. }
    destruct (Hin c) as [v Hv]; [set_solver|].
    unfold range_body. rewrite Hpres, Hv. unfold write_or_drop.
    destruct (werr c) eqn:Hwc; simpl.
    + split; [done|]. split.
      * intros c'. destruct (decide (c' = c)) as [->|Hne].
        -- rewrite lookup_delete_eq. rewrite decide_True; [done|].
           split; [set_solver|done].
        -- rewrite lookup_delete_ne by done. rewrite Hlk.
           apply decide_ext. set_solver.
      * exists (evs ++ [EvWrite c a true; EvLog (write_error v);
                        EvDelete c; EvClose ByHub c]).
        rewrite Hev, writes_app, deletes_app, !closes_app, inserts_app.
        rewrite Hw, Hd, Hcl, Hch, Hi.
        rewrite fmap_app, filter_app. simpl.
        rewrite (filter_cons_True _ c []) by done. rewrite Hwc.
        rewrite <- !(assoc_L (++)). repeat split; try done.
        change [EvWrite c a true; EvLog (write_error v); EvDelete c; EvClose ByHub c]
            with ([EvWrite c a true; EvLog (write_error v)]
                  ++ [EvDelete c; EvClose ByHub c]).
        rewrite (assoc_L (++)). apply cfd_drop. apply cfd_app_other; [done|].
        intros c'. set_solver.
    + split; [done|]. split.
      * intros c'. rewrite Hlk. apply decide_ext.
        split; intros [H1 H2]; split; try done; [set_solver|].
        apply elem_of_app in H1 as [?|H1]; [done|].
        apply list_elem_of_singleton in H1 as ->. congruence.
      * exists (evs ++ [EvWrite c a false]).
        rewrite Hev, writes_app, deletes_app, !closes_app, inserts_app.
        rewrite Hw, Hd, Hcl, Hch, Hi.
        rewrite fmap_app, filter_app. simpl.
        rewrite (filter_cons_False _ c []) by congruence. rewrite Hwc, !app_nil_r.
        rewrite <- !(assoc_L (++)). repeat split; try done.
        apply cfd_app_other; [done|]. intros c'. set_solver.
Qed.
End HubFacts.

Lemma length_filter_split (P : WsConn → Prop) `{∀ x, Decision (P x)}
    (l : list WsConn) :
  length (filter P l) + length (filter (λ x, ¬ P x) l) = length l.
Proof.
  induction l as [|x l IH]; [done|].
  destruct (decide (P x)).
  - rewrite filter_cons_True, (filter_cons_False (λ x, ¬ P x)) by tauto. simpl. lia.
  - rewrite filter_cons_False, (filter_cons_True (λ x, ¬ P x)) by tauto. simpl. lia.
Qed.

Lemma range_order_length {V} (m : ClientManager V) order :
  range_order m order → length order = size (clients m).
Proof.
  intros [Hnd Hdom]. rewrite <- size_dom, <- Hdom. by rewrite size_list_to_set.
Qed.

Lemma range_order_elem {V} (m : ClientManager V) order c :
  range_order m order → c ∈ order ↔ is_Some (clients m !! c).
Proof.
  intros [_ Hdom]. rewrite <- elem_of_dom, <- Hdom. by rewrite elem_of_list_to_set.
Qed.

(** C1: one pass of the broadcast loop over a registry of [N] connections,
    visited in any order, of which the [K] in [failing] fail their write:
    the pass writes the asset once to each of the [N] connections, in the
    order of the visit; it removes from the registry and closes exactly the
    failing ones, each removal directly followed by the close; it stores
    nothing; and the registry it leaves is the old one without the failing
    connections, of size [N - K]. *)
Theorem broadcast_fanout {V : Type} (write_error : V → LogLine)
    (werr : WsConn → bool) (a : Asset) (order : list WsConn)
    (m : ClientManager V) :
  range_order m order →
  let m' := broadcast_pass write_error werr a order m in
  let N := size (clients m) in
  let failing := filter (λ c, werr c = true) order in
  let K := length failing in
  length order = N ∧ K ≤ N ∧
  (∃ evs, effects m' = effects m ++ evs
     ∧ writes evs = (λ c, (c, a, werr c)) <$> order
     ∧ deletes evs = failing
     ∧ closes ByHub evs = failing
     ∧ closes_follow_deletes evs
     ∧ inserts evs = []) ∧
  clients m' = filter (λ kv, werr kv.1 = false) (clients m) ∧
  size (clients m') = N - K.
Proof.
  intros Hro m' N failing K.
  pose proof (range_order_length _ _ Hro) as Hlen.
  destruct (broadcast_pass_spec write_error werr a order m)
    as (_ & Hlk & evs & Hev & Hw & Hd & Hc & _ & Hi & Hcfd).
  { apply Hro. }
  { intros c. by rewrite (range_order_elem _ _ _ Hro). }
  fold m' in Hlk, Hev.
  assert (Hmap : clients m' = filter (λ kv, werr kv.1 = false) (clients m)).
  { apply map_eq. intros c. rewrite Hlk, map_lookup_filter.
    destruct (clients m !! c) as [v|] eqn:Hv; simpl.
    - assert (c ∈ order) by (rewrite (range_order_elem _ _ _ Hro); eauto).
      destruct (werr c) eqn:Hw'.
      + rewrite decide_True by done. by rewrite option_guard_False.
      + rewrite decide_False by (intros [_ ?]; congruence). by rewrite option_guard_True.
    - by destruct (decide _). }
  split; [done|]. split; [subst K N; rewrite <- Hlen; apply length_filter|].
  split; [exists evs; by repeat split|]. split; [done|].
  assert (Hdom : dom (clients m')
                 =@{gset WsConn}
                 list_to_set (filter (λ c, ¬ werr c = true) order)).
  { apply set_eq. intros c.
    rewrite elem_of_dom, elem_of_list_to_set, list_elem_of_filter, Hlk.
    pose proof (range_order_elem _ _ c Hro) as Hel.
    destruct (decide _) as [[? ?]|Hn].
    - split; [by intros [? ?] | by intros [? _]].
    - split.
      + intros Hs. apply Hel in Hs. split; [|done]. intros ?. by apply Hn.
      + intros [_ ?]. by apply Hel. }
  rewrite <- size_dom, Hdom, size_list_to_set by (apply NoDup_filter, Hro).
  subst N K failing. rewrite <- Hlen.
  pose proof (length_filter_split (λ c, werr c = true) order) as Hsp.
  cbv beta in Hsp. lia.
Qed.

(** ** Occurrences *)

Lemma times_nil c : times c [] = 0.
Proof. done. Qed.
Lemma times_cons c x l :
  times c (x :: l) = (if decide (x = c) then 1 else 0) + times c l.
Proof.
  unfold times. destruct (decide (x = c)).
  - by rewrite filter_cons_True.
  - by rewrite filter_cons_False.
Qed.

Lemma uuid_of_app c t1 t2 : uuid_of c (t1 ++ t2) = uuid_of c t1 ++ uuid_of c t2.
Proof. apply omap_app. Qed.

(** ** Reachable states of [part_000] and their invariants *)

(** Case analysis on an enabled step, and the projections of the state it
    leads to. *)
Ltac p000_cases H :=
  unfold Part000.exec, Part000.start, Part000.handleConnections,
    Part000.offer, Part000.receive, unregister_body, range_body,
    write_or_drop, Lock in H;
  repeat (case_match; simplify_option_eq; try done).

Ltac p000_state :=
  cbn [Part000.manager Part000.handlers Part000.dispatcher Part000.producer
       Part000.producer_pc Part000.set_handler Part000.set_manager
       Part000.set_dispatcher Part000.set_producer Part000.carried
       Part000.dispatcher_in_cs insert_client emit delete_and_close Unlock
       clients effects mutex] in *.

Ltac main_cases H :=
  unfold MainGo.exec, MainGo.start, MainGo.handleConnections,
    MainGo.offer, MainGo.receive, unregister_body, range_body,
    write_or_drop, Lock in H;
  repeat (case_match; simplify_option_eq; try done).

Ltac main_state :=
  cbn [MainGo.manager MainGo.handlers MainGo.dispatcher MainGo.producer
       MainGo.producer_pc MainGo.set_handler MainGo.set_manager
       MainGo.set_dispatcher MainGo.set_producer MainGo.carried
       insert_client emit delete_and_close Unlock clients effects mutex]
    in *.

Section Part000Facts.
Import Part000.

Lemma p000_run_snoc acts act s :
  run (acts ++ [act]) s = run acts s ≫= exec act.
Proof.
  revert s. induction acts as [|a acts IH]; intros s; simpl.
  - by destruct (exec act s).
  - destruct (exec a s); simpl; [apply IH | done].
Qed.

Lemma p000_reachable_init : reachable init.
Proof. by exists []. Qed.

Lemma p000_reachable_step s act s' :
  reachable s → exec act s = Some s' → reachable s'.
Proof. intros [acts H] He. exists (acts ++ [act]). rewrite p000_run_snoc, H. done. Qed.

Lemma p000_reachable_ind (P : State → Prop) :
  P init →
  (∀ s act s', reachable s → P s → exec act s = Some s' → P s') →
  ∀ s, reachable s → P s.
Proof.
  intros H0 Hs s [acts H]. revert s H.
  induction acts as [|act acts IH] using rev_ind; intros s H.
  - by injection H as <-.
  - rewrite p000_run_snoc in H. destruct (run acts init) as [s1|] eqn:E; [|done].
    simpl in H. eapply Hs; [by exists acts | by apply IH | done].
Qed.

(** [is_Some] of a known option, under an equivalence. *)
Lemma is_Some_None_iff {A} (P : Prop) : (is_Some (@None A) ↔ P) ↔ ¬ P.
Proof.
  split.
  - intros [_ H] HP. by destruct (H HP).
  - intros HP. split; [by intros [? ?] | done].
Qed.
Lemma is_Some_Some_iff {A} (x : A) (P : Prop) : (is_Some (Some x) ↔ P) ↔ P.
Proof. split; [intros [H _]; eauto | intros HP; split; eauto]. Qed.

(** Every step keeps the bookkeeping of every connection. *)
Lemma p000_conn_inv_step s act s' c :
  conn_inv s c → exec act s = Some s' → conn_inv s' c.
Proof.
  intros Hi He. destruct act as [c0|c0 o|o|[c0|]|r|].
  all: p000_cases He.
  all: unfold conn_inv in *; p000_state.
  all: rewrite ?lookup_insert, ?lookup_delete.
  all: rewrite ?inserts_app, ?closes_app, ?deletes_app, ?uuid_of_app, ?times_app.
  all: simpl.
  all: rewrite ?times_cons, ?times_nil.
  all: repeat case_decide; simplify_eq.
  all: repeat match goal with H : handlers _ !! _ = _ |- _ => rewrite H in * end.
  all: repeat match goal with H : clients _ !! _ = _ |- _ => rewrite H in * end.
  all: simpl in *.
  all: rewrite ?app_nil_r, ?Nat.add_0_r.
  all: destruct Hi as (I1 & I2 & I3 & I4 & I5 & I6 & I7).
  all: rewrite ?is_Some_None_iff, ?is_Some_Some_iff in *.
  all: repeat match goal with H : uuid_of _ _ = _ |- _ => rewrite H in * end.
  all: repeat split; first [lia | naive_solver lia].
Qed.

Lemma p000_conn_inv_init c : conn_inv init c.
Proof.
  unfold conn_inv. simpl. rewrite !lookup_empty. simpl.
  repeat split; try done; try lia; by intros [? ?].
Qed.

Lemma p000_conn_inv_reachable s c : reachable s → conn_inv s c.
Proof.
  intros H. induction H as [|s act s' _ IH He] using p000_reachable_ind.
  - apply p000_conn_inv_init.
  - by eapply p000_conn_inv_step.
Qed.

(** Forward chaining with the clauses of [mutex_inv]. *)
Ltac mx_fwd :=
  repeat match goal with
  | M : ?P → _, H : ?P |- _ =>
      match type of P with Prop => specialize (M H) end
  | M : ?x = ?x → _ |- _ => specialize (M eq_refl)
  | M : _ ∧ _ |- _ => destruct M
  | M : (∀ c pc, handlers ?s !! c = Some pc → handler_in_cs pc = false),
    H : handlers ?s !! _ = Some ?pc |- _ =>
      lazymatch goal with
      | E : handler_in_cs pc = false |- _ => fail
      | _ => pose proof (M _ _ H)
      end
  end.

(** Every step keeps mutual exclusion. *)
Lemma p000_mutex_inv_step s act s' :
  mutex_inv s → exec act s = Some s' → mutex_inv s'.
Proof.
  intros (M1 & M2 & M3) He. destruct act as [c0|c0 o|o|[c0|]|r|].
  all: p000_cases He.
  all: unfold mutex_inv, no_handler_in_cs in *; p000_state.
  all: repeat match goal with H : dispatcher _ = _ |- _ => rewrite H in * end; simpl in *.
  all: repeat split; intros.
  all: repeat match goal with
              | H : <[_:=_]> _ !! _ = Some _ |- _ =>
                  rewrite lookup_insert in H; case_decide; simplify_eq
              end.
  all: try done.
  all: try match goal with |- ?b = false => destruct b eqn:?; [exfalso|done] end.
  all: mx_fwd; simpl in *; try congruence.
  all: try (by eauto 4).
Qed.

Lemma p000_mutex_inv_reachable s : reachable s → mutex_inv s.
Proof.
  intros H. induction H as [|s act s' _ IH He] using p000_reachable_ind.
  - by repeat split.
  - by eapply p000_mutex_inv_step.
Qed.

(** Every close by the hub directly follows the removal of the entry. *)
Lemma p000_cfd_reachable s : reachable s → closes_follow_deletes (effects (manager s)).
Proof.
  intros H. induction H as [|s act s' _ IH He] using p000_reachable_ind.
  - apply cfd_nil.
  - destruct act as [c0|c0 o|o|[c0|]|r|].
    all: p000_cases He.
    all: p000_state.
    all: first
      [ done
      | apply cfd_drop, cfd_app_other; [done | intros ? ?; set_solver]
      | apply cfd_app_other; [done | intros ? ?; set_solver] ].
Qed.

(** The dispatcher never enters its [register] branch. *)
Lemma p000_register_unused_reachable s : reachable s → register_unused s.
Proof.
  intros H. induction H as [|s act s' _ [IH1 IH2] He] using p000_reachable_ind.
  - split; [done|]. intros n Hn. by apply elem_of_nil in Hn.
  - destruct act as [c0|c0 o|o|[c0|]|r|].
    all: p000_cases He.
    all: unfold register_unused; p000_state.
    all: rewrite ?logs_app; simpl.
    all: split; [congruence|]; try done.
    all: intros n' Hn'; apply (IH2 n').
    all: try congruence.
    all: repeat (apply elem_of_app in Hn' as [Hn'|Hn'];
                 [|by repeat (apply elem_of_cons in Hn' as [?|Hn']; [done|]);
                      apply elem_of_nil in Hn']); done.
Qed.

(** The producer's variables never change and every asset in flight was
    built from them. *)
Lemma p000_producer_inv_reachable s : reachable s → producer_inv s.
Proof.
  intros H. induction H as [|s act s' _ (I1 & I2 & I3 & I4) He] using p000_reachable_ind.
  - repeat split; try done. intros c a err Hx. by apply elem_of_nil in Hx.
  - destruct act as [c0|c0 o|o|[c0|]|r|].
    all: p000_cases He.
    all: unfold producer_inv in *; p000_state.
    all: repeat match goal with H : dispatcher _ = _ |- _ => rewrite H in * end.
    all: repeat match goal with H : producer_pc _ = _ |- _ => rewrite H in * end.
    all: rewrite ?writes_app; simpl in *; rewrite ?app_nil_r.
    all: repeat split; try done.
    all: try (intros; simplify_eq; by eauto).
    all: try (intros c' a' err' Hx; apply elem_of_app in Hx as [Hx|Hx]; [by eauto|];
              apply list_elem_of_singleton in Hx; simplify_eq; by eauto).
    all: try (intros ? [= <-]; rewrite I1; by eexists).
Qed.
End Part000Facts.

(** ** Reachable states of [main.go] and their invariants *)

Section MainGoFacts.
Import MainGo.

Lemma main_run_snoc acts act s :
  run (acts ++ [act]) s = run acts s ≫= exec act.
Proof.
  revert s. induction acts as [|a acts IH]; intros s; simpl.
  - by destruct (exec act s).
  - destruct (exec a s); simpl; [apply IH | done].
Qed.

Lemma main_run_app acts1 acts2 s :
  run (acts1 ++ acts2) s = run acts1 s ≫= run acts2.
Proof.
  revert s. induction acts1 as [|a acts IH]; intros s; simpl; [done|].
  destruct (exec a s); simpl; [apply IH | done].
Qed.

Lemma main_reachable_step s act s' :
  reachable s → exec act s = Some s' → reachable s'.
Proof. intros [acts H] He. exists (acts ++ [act]). rewrite main_run_snoc, H. done. Qed.

Lemma main_reachable_ind (P : State → Prop) :
  P init →
  (∀ s act s', reachable s → P s → exec act s = Some s' → P s') →
  ∀ s, reachable s → P s.
Proof.
  intros H0 Hs s [acts H]. revert s H.
  induction acts as [|act acts IH] using rev_ind; intros s H.
  - by injection H as <-.
  - rewrite main_run_snoc in H. destruct (run acts init) as [s1|] eqn:E; [|done].
    simpl in H. eapply Hs; [by exists acts | by apply IH | done].
Qed.

(** Every step keeps the bookkeeping of every connection. *)
Lemma main_conn_inv_step s act s' c :
  conn_inv s c → exec act s = Some s' → conn_inv s' c.
Proof.
  intros Hi He. destruct act as [c0|c0 o|o|[c0|]|r|].
  all: main_cases He.
  all: unfold conn_inv, stored in *; main_state.
  all: repeat match goal with H : dispatcher _ = _ |- _ => rewrite H in * end.
  all: rewrite ?lookup_insert, ?lookup_delete.
  all: rewrite ?inserts_app, ?closes_app, ?deletes_app, ?times_app.
  all: simpl.
  all: rewrite ?times_cons, ?times_nil.
  all: repeat case_decide; simplify_eq.
  all: repeat match goal with H : handlers _ !! _ = _ |- _ => rewrite H in * end.
  all: repeat match goal with H : clients _ !! _ = _ |- _ => rewrite H in * end.
  all: simpl in *.
  all: rewrite ?app_nil_r, ?Nat.add_0_r.
  all: destruct Hi as (I0 & I1 & I2 & I3 & I4 & I5).
  all: rewrite ?is_Some_None_iff, ?is_Some_Some_iff in *.
  all: repeat case_bool_decide; simplify_eq; simpl in *.
  all: try (pose proof (I0 eq_refl) as I0'; rewrite I0' in *; simpl in *).
  all: repeat split; first [done | lia | naive_solver lia].
Qed.

Lemma main_conn_inv_reachable s c : reachable s → conn_inv s c.
Proof.
  intros H. induction H as [|s act s' _ IH He] using main_reachable_ind.
  - unfold conn_inv, stored. simpl. rewrite !lookup_empty. simpl.
    repeat split; try done; try lia; by intros [? ?].
  - by eapply main_conn_inv_step.
Qed.

(** Only the dispatcher locks; inside its critical sections the mutex is
    held. *)
Lemma main_mutex_reachable s :
  reachable s → dispatcher_in_cs (dispatcher s) = true → mutex (manager s) = true.
Proof.
  intros H. induction H as [|s act s' _ IH He] using main_reachable_ind; [done|].
  destruct act as [c0|c0 o|o|[c0|]|r|].
  all: main_cases He.
  all: main_state.
  all: repeat match goal with H : dispatcher _ = _ |- _ => rewrite H in * end.
  all: simpl in *; try done; try (by apply IH).
Qed.

(** Every close by the hub directly follows the removal of the entry. *)
Lemma main_cfd_reachable s : reachable s → closes_follow_deletes (effects (manager s)).
Proof.
  intros H. induction H as [|s act s' _ IH He] using main_reachable_ind.
  - apply cfd_nil.
  - destruct act as [c0|c0 o|o|[c0|]|r|].
    all: main_cases He.
    all: main_state.
    all: rewrite ?app_nil_r.
    all: first
      [ done
      | apply cfd_drop, cfd_app_other; [done | intros ? ?; set_solver]
      | apply cfd_drop; done
      | apply cfd_app_other; [done | intros ? ?; set_solver] ].
Qed.

(** The producer's variables never change and every asset in flight was
    built from them. *)
Lemma main_producer_inv_reachable s : reachable s → producer_inv s.
Proof.
  intros H. induction H as [|s act s' _ (I1 & I2 & I3 & I4) He] using main_reachable_ind.
  - repeat split; try done. intros c a err Hx. by apply elem_of_nil in Hx.
  - destruct act as [c0|c0 o|o|[c0|]|r|].
    all: main_cases He.
    all: unfold producer_inv in *; main_state.
    all: repeat match goal with H : dispatcher _ = _ |- _ => rewrite H in * end.
    all: repeat match goal with H : producer_pc _ = _ |- _ => rewrite H in * end.
    all: rewrite ?writes_app; simpl in *; rewrite ?app_nil_r.
    all: repeat split; try done.
    all: try (intros; simplify_eq; by eauto).
    all: try (intros c' a' err' Hx; apply elem_of_app in Hx as [Hx|Hx]; [by eauto|];
              apply list_elem_of_singleton in Hx; simplify_eq; by eauto).
    all: try (intros ? [= <-]; rewrite I1; by eexists).
Qed.
End MainGoFacts.

(** ** Counting in traces *)

Lemma times_pos c l : c ∈ l ↔ 0 < times c l.
Proof.
  unfold times. induction l as [|x l IH]; simpl.
  - split; [by intros ?%elem_of_nil | lia].
  - rewrite elem_of_cons, IH. destruct (decide (x = c)) as [->|Hne].
    + rewrite filter_cons_True by done. simpl. split; [lia | by left].
    + rewrite filter_cons_False by done.
      split; [intros [?|?]; [congruence | done] | by right].
Qed.

Lemma uuid_of_elem c r tr : (c, r) ∈ uuid_reads tr ↔ r ∈ uuid_of c tr.
Proof.
  unfold uuid_reads, uuid_of. rewrite !list_elem_of_omap. split.
  - intros (e & He & Hx). exists e. split; [done|]. destruct e; simplify_eq.
    by rewrite decide_True.
  - intros (e & He & Hx). exists e. split; [done|]. destruct e; simplify_eq.
    case_decide; by simplify_eq.
Qed.

Lemma all_closes_split c tr :
  times c (all_closes tr) = times c (closes ByHub tr) + times c (closes ByHandler tr).
Proof.
  induction tr as [|e tr IH]; [done|].
  destruct e as [| | |[] c'| |]; simpl; rewrite ?times_cons, ?IH; try done; lia.
Qed.

Lemma keys_NoDup {V} (m : gmap WsConn V) : NoDup (map_to_list m).*1.
Proof. apply NoDup_fst_map_to_list. Qed.

(** ** The registry and the closed connections *)

(** A connection the hub has closed is not in the registry. *)
Lemma p000_closed_absent s c :
  Part000.reachable s →
  c ∈ closes ByHub (effects (Part000.manager s)) →
  clients (Part000.manager s) !! c = None.
Proof.
  intros Hr Hc. destruct (p000_conn_inv_reachable s c Hr) as (_ & _ & _ & I4 & _).
  apply times_pos in Hc. apply eq_None_not_Some. intros Hs. apply I4 in Hs. lia.
Qed.

Lemma main_closed_absent s c :
  MainGo.reachable s →
  c ∈ closes ByHub (effects (MainGo.manager s)) →
  clients (MainGo.manager s) !! c = None.
Proof.
  intros Hr Hc. destruct (main_conn_inv_reachable s c Hr) as (_ & _ & _ & _ & I4 & _).
  apply times_pos in Hc. apply eq_None_not_Some. intros Hs. apply I4 in Hs. lia.
Qed.

(** C2: in every reachable state of either variant the registry has one
    entry per connection identity, holds no connection the hub has closed,
    and every close by the hub directly follows the removal of that entry. *)
Theorem registry_consistency :
  (∀ s, Part000.reachable s →
     NoDup (map_to_list (clients (Part000.manager s))).*1 ∧
     (∀ c, c ∈ closes ByHub (effects (Part000.manager s)) →
           clients (Part000.manager s) !! c = None) ∧
     closes_follow_deletes (effects (Part000.manager s))) ∧
  (∀ s, MainGo.reachable s →
     NoDup (map_to_list (clients (MainGo.manager s))).*1 ∧
     (∀ c, c ∈ closes ByHub (effects (MainGo.manager s)) →
           clients (MainGo.manager s) !! c = None) ∧
     closes_follow_deletes (effects (MainGo.manager s))).
Proof.
  split; intros s Hr; (split; [apply keys_NoDup|]); split.
  - intros c. by apply p000_closed_absent.
  - by apply p000_cfd_reachable.
  - intros c. by apply main_closed_absent.
  - by apply main_cfd_reachable.
Qed.

(** C4, as amended: the hub closes a connection at most once and the
    handler's deferred call closes it at most once, exactly when the handler
    has returned; in [main.go] the handler never returns, so a connection is
    closed at most once in all. *)
Theorem closes_once_per_closer :
  (∀ s c, Part000.reachable s →
     let tr := effects (Part000.manager s) in
     times c (closes ByHub tr) ≤ 1 ∧
     times c (closes ByHandler tr)
       = (if Part000.returned (Part000.handlers s !! c) then 1 else 0) ∧
     times c (all_closes tr) ≤ 2) ∧
  (∀ s c, MainGo.reachable s →
     let tr := effects (MainGo.manager s) in
     times c (closes ByHandler tr) = 0 ∧
     times c (all_closes tr) ≤ 1).
Proof.
  split; intros s c Hr tr.
  - destruct (p000_conn_inv_reachable s c Hr) as (I1 & _ & I3 & _ & I5 & _).
    fold tr in I1, I3, I5. rewrite all_closes_split.
    destruct (Part000.stored _), (Part000.returned _); repeat split; lia.
  - destruct (main_conn_inv_reachable s c Hr) as (_ & I1 & _ & I3 & _ & I5).
    fold tr in I1, I3, I5. rewrite all_closes_split.
    destruct (MainGo.stored _ _); repeat split; lia.
Qed.

(** ** What a single step may change *)

Section Part000Steps.
Import Part000.

(** A step that changes the registry is taken inside a critical section,
  by the handler at line 103 or by the dispatcher, and keeps the mutex. *)
Lemma p000_clients_step s act s' :
exec act s = Some s' →
clients (manager s') = clients (manager s) ∨
(actor_in_cs act s ∧ mutex (manager s') = mutex (manager s) ∧
 ((∃ c u, act = Handler c Plain ∧ handlers s !! c = Some (HInsert u)
          ∧ clients (manager s') = <[c := mkClient c u]> (clients (manager s)))
  ∨ (∃ c o, act = Dispatcher o ∧ is_Some (clients (manager s) !! c)
            ∧ clients (manager s') = delete c (clients (manager s))))).
Proof.
intros He. destruct act as [c0|c0 o|o|[c0|]|r|].
all: p000_cases He; p000_state; try (by left).
all: right.
- split; [by eexists|]. split; [done|]. left. by eexists _, _.
- repeat match goal with H : dispatcher _ = _ |- _ => rewrite H end.
  split; [done|]. split; [done|]. right. by eexists _, _.
- repeat match goal with H : dispatcher _ = _ |- _ => rewrite H end.
  split; [done|]. split; [done|]. right. by eexists _, _.
Qed.

(** Steps of the handlers and of the producer leave the dispatcher where it
  is, unless they are the send of a [select]. *)
Lemma p000_other_threads s act s' :
exec act s = Some s' →
(∀ o, act ≠ Dispatcher o) → (∀ from, act ≠ Select from) →
dispatcher s' = dispatcher s.
Proof.
intros He Hnd Hns. destruct act as [c0|c0 o|o|[c0|]|r|].
all: try (by destruct (Hnd o)); try (by edestruct Hns).
all: p000_cases He.
Qed.

Lemma p000_select_needs_idle s from s' :
exec (Select from) s = Some s' → dispatcher s = DSelect.
Proof. intros He. destruct from; p000_cases He. Qed.

End Part000Steps.

Section MainGoSteps.
Import MainGo.

(** Only the dispatcher touches the manager. *)
Lemma main_other_threads s act s' :
exec act s = Some s' →
(∀ o, act ≠ Dispatcher o) →
manager s' = manager s ∧
((∀ from, act ≠ Select from) → dispatcher s' = dispatcher s).
Proof.
intros He Hnd. destruct act as [c0|c0 o|o|[c0|]|r|].
all: try (by destruct (Hnd o)).
all: main_cases He; main_state; split; try done.
all: intros Hns; by edestruct Hns.
Qed.

Lemma main_select_needs_idle s from s' :
exec (Select from) s = Some s' → dispatcher s = DSelect.
Proof. intros He. destruct from; main_cases He. Qed.

Lemma main_clients_step s o s' :
exec (Dispatcher o) s = Some s' →
clients (manager s') = clients (manager s) ∨
(dispatcher_in_cs (dispatcher s) = true
 ∧ mutex (manager s') = mutex (manager s)).
Proof.
intros He. main_cases He; main_state; try (by left).
all: right.
all: repeat match goal with H : dispatcher _ = _ |- _ => rewrite H end; done.
Qed.

(** Once the dispatcher waits for a mutex that is held, nothing changes any
  more: no other thread unlocks. *)
Lemma main_blocked_forever acts s s' :
at_lock (dispatcher s) = true → mutex (manager s) = true →
run acts s = Some s' →
dispatcher s' = dispatcher s ∧ manager s' = manager s.
Proof.
revert s. induction acts as [|act acts IH]; intros s Hd Hm Hrun; simpl in Hrun.
- by simplify_eq.
- destruct (exec act s) as [s1|] eqn:He; [|done]. simpl in Hrun.
  assert (dispatcher s1 = dispatcher s ∧ manager s1 = manager s) as [E1 E2].
  { clear Hrun IH. destruct act as [c0|c0 o|o|[c0|]|r|].
    all: main_cases He; main_state; try done.
    all: match goal with H : dispatcher _ = _ |- _ => rewrite H in Hd end; done. }
  destruct (IH s1) as [E3 E4]; [by rewrite E1 | by rewrite E2 | done |].
  by rewrite E3, E4.
Qed.

(** The [unregister] branch, run from a free mutex, returns to the [select]
  with the mutex still held. *)
Lemma main_unregister_branch s c :
dispatcher s = DUnregLock c → mutex (manager s) = false →
∃ s', run [Dispatcher Plain; Dispatcher Plain; Dispatcher Plain] s = Some s'
      ∧ dispatcher s' = DSelect
      ∧ mutex (manager s') = true
      ∧ clients (manager s') = delete c (clients (manager s)).
Proof.
intros Hd Hm. unfold run, exec, start. rewrite Hd.
unfold Lock. rewrite Hm. simpl. unfold unregister_body. simpl.
destruct (clients (manager s) !! c) eqn:Hc; simpl.
- eexists. split; [done|]. by repeat split.
- eexists. split; [done|]. repeat split. simpl. by rewrite delete_id.
Qed.

End MainGoSteps.

(** ** The unregister branch *)

Lemma unregister_body_absent {V} (disconnecting : V → list LogLine) c
    (m : ClientManager V) :
  clients m !! c = None → unregister_body disconnecting c m = m.
Proof. intros H. unfold unregister_body. by rewrite H. Qed.

Lemma unregister_body_present {V} (disconnecting : V → list LogLine) c v
    (m : ClientManager V) :
  clients m !! c = Some v →
  let m' := unregister_body disconnecting c m in
  clients m' = delete c (clients m) ∧
  mutex m' = mutex m ∧
  effects m' = effects m ++ (EvLog <$> disconnecting v)
                 ++ [EvDelete c; EvClose ByHub c].
Proof.
  intros H. unfold unregister_body. rewrite H. simpl.
  by rewrite <- (assoc_L (++)).
Qed.

(** In [part_000] the branch releases the mutex: run from a free mutex it
    is back at the [select] with the mutex free, the entry of [c] removed
    and closed if there was one, and nothing removed or closed otherwise. *)
Lemma p000_unregister_branch s c :
  Part000.dispatcher s = Part000.DUnregLock c →
  mutex (Part000.manager s) = false →
  ∃ s', Part000.run
          [Dispatcher Plain; Dispatcher Plain; Dispatcher Plain; Dispatcher Plain] s
        = Some s'
    ∧ Part000.dispatcher s' = Part000.DSelect
    ∧ mutex (Part000.manager s') = false
    ∧ clients (Part000.manager s') = delete c (clients (Part000.manager s))
    ∧ closes ByHub (effects (Part000.manager s'))
      = closes ByHub (effects (Part000.manager s))
        ++ match clients (Part000.manager s) !! c with
           | Some _ => [c]
           | None => []
           end.
Proof.
  intros Hd Hm. unfold Part000.run, Part000.exec, Part000.start.
  rewrite Hd. unfold Lock. rewrite Hm. simpl. unfold unregister_body. simpl.
  destruct (clients (Part000.manager s) !! c) eqn:Hc; simpl.
  - eexists. split; [done|]. repeat split. simpl.
    rewrite !closes_app. simpl. by rewrite !app_nil_r.
  - eexists. split; [done|]. repeat split; simpl.
    + by rewrite delete_id.
    + rewrite !closes_app. simpl. by rewrite !app_nil_r.
Qed.

Lemma main_after_two_disconnects_run :
  MainGo.run main_two_disconnects MainGo.init = Some main_after_two_disconnects.
Proof. vm_compute. reflexivity. Qed.

(** C5, the failing input on [main.go]: every run of the [unregister]
    branch returns to the [select] with the mutex held; so after two
    clients have registered and the first has been unregistered, the
    unregistration of the second, which is in the registry, waits for the
    mutex, and nothing later removes or closes it. *)
Theorem main_unregister_keeps_mutex :
  (∀ s c, MainGo.dispatcher s = MainGo.DUnregLock c →
     mutex (MainGo.manager s) = false →
     ∃ s', MainGo.run [Dispatcher Plain; Dispatcher Plain; Dispatcher Plain] s
           = Some s'
       ∧ MainGo.dispatcher s' = MainGo.DSelect
       ∧ mutex (MainGo.manager s') = true) ∧
  MainGo.run main_two_disconnects MainGo.init = Some main_after_two_disconnects ∧
  MainGo.dispatcher main_after_two_disconnects = MainGo.DUnregLock 2 ∧
  mutex (MainGo.manager main_after_two_disconnects) = true ∧
  clients (MainGo.manager main_after_two_disconnects) !! 2 = Some true ∧
  all_closes (effects (MainGo.manager main_after_two_disconnects)) = [1] ∧
  (∀ acts s', MainGo.run acts main_after_two_disconnects = Some s' →
     MainGo.dispatcher s' = MainGo.DUnregLock 2 ∧
     clients (MainGo.manager s') !! 2 = Some true ∧
     all_closes (effects (MainGo.manager s')) = [1]).
Proof.
  split.
  { intros s c Hd Hm.
    destruct (main_unregister_branch s c Hd Hm) as (s' & Hrun & H1 & H2 & _).
    by exists s'. }
  split; [apply main_after_two_disconnects_run|].
  split; [by vm_compute|]. split; [by vm_compute|]. split; [by vm_compute|].
  split; [by vm_compute|].
  intros acts s' Hrun.
  apply main_blocked_forever in Hrun as [-> ->]; by vm_compute.
Qed.

(** ** Serialisation under the mutex *)

Lemma p000_in_cs_locked s :
  Part000.reachable s →
  (Part000.dispatcher_in_cs (Part000.dispatcher s) = true →
     mutex (Part000.manager s) = true ∧ Part000.no_handler_in_cs s) ∧
  (∀ c pc, Part000.handlers s !! c = Some pc →
     Part000.handler_in_cs pc = true →
     mutex (Part000.manager s) = true
     ∧ Part000.dispatcher_in_cs (Part000.dispatcher s) = false).
Proof.
  intros Hr. destruct (p000_mutex_inv_reachable s Hr) as (M1 & M2 & M3).
  split.
  - intros Hd. split; [|by apply M2].
    destruct (mutex (Part000.manager s)) eqn:Hm; [done|].
    destruct (M1 eq_refl) as [Hd' _]. congruence.
  - intros c pc Hc Hpc. split.
    + destruct (mutex (Part000.manager s)) eqn:Hm; [done|].
      destruct (M1 eq_refl) as [_ Hh]. rewrite (Hh c pc Hc) in Hpc. done.
    + destruct (Part000.dispatcher_in_cs (Part000.dispatcher s)) eqn:Hd; [|done].
      rewrite (M2 eq_refl c pc Hc) in Hpc. done.
Qed.

Lemma p000_actor_locked s act :
  Part000.reachable s → Part000.actor_in_cs act s →
  mutex (Part000.manager s) = true.
Proof.
  intros Hr Ha. destruct (p000_in_cs_locked s Hr) as [H1 H2].
  destruct act; simpl in Ha; try done.
  - destruct Ha as (pc & Hc & Hpc). by apply (H2 _ _ Hc Hpc).
  - by apply H1.
Qed.

(** C8: in both variants, while a broadcast pass is iterating, the mutex is
    held, no other thread is inside a critical section, no step of another
    thread changes the registry or lets the dispatcher start anything else;
    and every step that adds or removes an entry is taken by a thread inside
    its critical section, the mutex held before and after. *)
Theorem broadcast_serialized :
  (∀ s act s', Part000.reachable s → Part000.exec act s = Some s' →
     Part000.mutex_inv s ∧
     (Part000.pass_in_progress (Part000.dispatcher s) = true →
        mutex (Part000.manager s) = true ∧ Part000.no_handler_in_cs s ∧
        ((∀ o, act ≠ Dispatcher o) →
           clients (Part000.manager s') = clients (Part000.manager s)
           ∧ Part000.dispatcher s' = Part000.dispatcher s)) ∧
     (clients (Part000.manager s') ≠ clients (Part000.manager s) →
        Part000.actor_in_cs act s
        ∧ mutex (Part000.manager s) = true
        ∧ mutex (Part000.manager s') = true)) ∧
  (∀ s act s', MainGo.reachable s → MainGo.exec act s = Some s' →
     (MainGo.pass_in_progress (MainGo.dispatcher s) = true →
        mutex (MainGo.manager s) = true ∧
        ((∀ o, act ≠ Dispatcher o) →
           MainGo.manager s' = MainGo.manager s
           ∧ MainGo.dispatcher s' = MainGo.dispatcher s)) ∧
     (clients (MainGo.manager s') ≠ clients (MainGo.manager s) →
        (∃ o, act = Dispatcher o)
        ∧ MainGo.dispatcher_in_cs (MainGo.dispatcher s) = true
        ∧ mutex (MainGo.manager s) = true
        ∧ mutex (MainGo.manager s') = true)).
Proof.
  split.
  - intros s act s' Hr He.
    pose proof (p000_reachable_step _ _ _ Hr He) as Hr'.
    split; [by apply p000_mutex_inv_reachable|]. split.
    + intros Hp. destruct (p000_in_cs_locked s Hr) as [H1 _].
      destruct H1 as [Hm Hh]; [by destruct (Part000.dispatcher s)|].
      split; [done|]. split; [done|]. intros Hnd.
      assert (Hns : ∀ from, act ≠ Select from).
      { intros from ->. apply p000_select_needs_idle in He. by rewrite He in Hp. }
      split; [|by eapply p000_other_threads].
      destruct (p000_clients_step _ _ _ He) as [|(Ha & _)]; [done|].
      destruct act; simpl in Ha; try done.
      * destruct Ha as (pc & Hc & Hpc). rewrite (Hh _ _ Hc) in Hpc. done.
      * by edestruct Hnd.
    + intros Hne. destruct (p000_clients_step _ _ _ He) as [|(Ha & Hmm & _)]; [done|].
      pose proof (p000_actor_locked _ _ Hr Ha) as Hm.
      split; [done|]. split; [done|]. by rewrite Hmm.
  - intros s act s' Hr He. split.
    + intros Hp. split.
      { apply main_mutex_reachable; [done|]. by destruct (MainGo.dispatcher s). }
      intros Hnd. destruct (main_other_threads _ _ _ He Hnd) as [Hm Hd].
      split; [done|]. apply Hd. intros from ->.
      apply main_select_needs_idle in He. by rewrite He in Hp.
    + intros Hne.
      assert (∃ o, act = Dispatcher o) as [o ->].
      { destruct act as [c0|c0 o|o|from|r|]; try (by eexists).
        all: exfalso; apply Hne; f_equal; eapply main_other_threads; [done|done]. }
      destruct (main_clients_step _ _ _ He) as [|[Hcs Hmm]]; [done|].
      split; [by eexists|]. split; [done|].
      pose proof (main_mutex_reachable s Hr Hcs) as Hm.
      split; [done|]. by rewrite Hmm.
Qed.

(** ** Registration in [part_000] *)

(** An entry appears in the registry only by the handler's own line 103,
    with the identifier it has read. *)
Lemma p000_insert_step s act s' c :
  Part000.exec act s = Some s' →
  clients (Part000.manager s) !! c = None →
  is_Some (clients (Part000.manager s') !! c) →
  ∃ u, act = Handler c Plain
       ∧ Part000.handlers s !! c = Some (Part000.HInsert u)
       ∧ clients (Part000.manager s')
         = <[c := Part000.mkClient c u]> (clients (Part000.manager s)).
Proof.
  intros He Hn Hs.
  destruct (p000_clients_step _ _ _ He) as [Heq|(_ & _ & Hcase)].
  { rewrite Heq, Hn in Hs. by destruct Hs. }
  destruct Hcase as [(c0 & u & -> & Hc & Heq)|(c0 & o & -> & _ & Heq)].
  - rewrite Heq in Hs. destruct (decide (c0 = c)) as [->|Hne]; [by eexists|].
    rewrite lookup_insert_ne, Hn in Hs by done. by destruct Hs.
  - rewrite Heq in Hs. destruct (decide (c0 = c)) as [->|Hne].
    + rewrite lookup_delete_eq in Hs. by destruct Hs.
    + rewrite lookup_delete_ne, Hn in Hs by done. by destruct Hs.
Qed.

(** C9: in [part_000], for every reachable state and connection: if the
    first read failed, the handler has returned, the connection has never
    been stored, is not in the registry and has been closed, once, by the
    handler; if it gave an identifier, the connection is stored at most
    once, exactly once as soon as line 103 has run, and only under that
    identifier.  The read itself leads to the return or to the [Lock] and
    leaves the registry alone, and from the [Lock], the mutex free, the
    handler stores exactly the entry of its connection. *)
Theorem uuid_read_decides_registration (s : Part000.State) (c : WsConn) :
  Part000.reachable s →
  let tr := effects (Part000.manager s) in
  ((c, None) ∈ uuid_reads tr →
     Part000.handlers s !! c = Some Part000.HAborted ∧
     (c ∉ inserts tr) ∧
     clients (Part000.manager s) !! c = None ∧
     times c (closes ByHandler tr) = 1 ∧
     times c (all_closes tr) = 1) ∧
  (∀ u, (c, Some u) ∈ uuid_reads tr →
     times c (inserts tr) ≤ 1 ∧
     (Part000.stored (Part000.handlers s !! c) = true →
        times c (inserts tr) = 1) ∧
     (∀ cl, clients (Part000.manager s) !! c = Some cl →
        cl = Part000.mkClient c u)) ∧
  (∀ o s', Part000.handlers s !! c = Some Part000.HReadUUID →
     Part000.exec (Handler c o) s = Some s' →
     clients (Part000.manager s') = clients (Part000.manager s) ∧
     ((o = ReadJSON None
       ∧ Part000.handlers s' !! c = Some Part000.HAborted
       ∧ effects (Part000.manager s')
         = tr ++ [EvReadUUID c None; EvLog LogReadUUIDError;
                  EvClose ByHandler c])
      ∨ (∃ u, o = ReadJSON (Some u)
              ∧ Part000.handlers s' !! c = Some (Part000.HLock u)))) ∧
  (∀ u, Part000.handlers s !! c = Some (Part000.HLock u) →
     mutex (Part000.manager s) = false →
     clients (Part000.manager s) !! c = None ∧
     ∃ s', Part000.run [Handler c Plain; Handler c Plain; Handler c Plain] s
           = Some s'
       ∧ clients (Part000.manager s')
         = <[c := Part000.mkClient c u]> (clients (Part000.manager s))
       ∧ size (clients (Part000.manager s'))
         = S (size (clients (Part000.manager s)))).
Proof.
  intros Hr tr.
  destruct (p000_conn_inv_reachable s c Hr) as (I1 & I2 & I3 & I4 & I5 & I6 & I7).
  fold tr in I1, I2, I3, I4, I5, I6, I7.
  split; [|split; [|split]].
  - intros Hx. apply uuid_of_elem in Hx.
    assert (Hpc : Part000.handlers s !! c = Some Part000.HAborted).
    { destruct (Part000.handlers s !! c) as [[]|]; simpl in I6;
        try done;
        repeat match type of I6 with ex _ => destruct I6 as [? I6] end;
        rewrite I6 in Hx;
        first [by apply elem_of_nil in Hx
              | by apply list_elem_of_singleton in Hx]. }
    rewrite Hpc in I1, I5. simpl in I1, I5.
    split; [done|]. split; [rewrite times_pos; lia|]. split.
    { apply eq_None_not_Some. intros Hs. apply I4 in Hs. lia. }
    split; [done|]. rewrite all_closes_split. lia.
  - intros u Hx. apply uuid_of_elem in Hx.
    split; [destruct (Part000.stored _); lia|].
    split; [intros Hst; by rewrite Hst in I1|].
    intros cl Hcl. destruct (I7 cl Hcl) as (u' & Hu & ->).
    rewrite Hu in Hx. apply list_elem_of_singleton in Hx. by simplify_eq.
  - intros o s' Hpc He. unfold Part000.exec in He. rewrite Hpc in He.
    simpl in He. destruct o as [|[u|]| | |]; simplify_eq; simpl.
    + split; [done|]. right. exists u. by rewrite lookup_insert_eq.
    + split; [done|]. left. by rewrite lookup_insert_eq.
  - intros u Hpc Hm. rewrite Hpc in I1. simpl in I1.
    assert (Hn : clients (Part000.manager s) !! c = None).
    { apply eq_None_not_Some. intros Hs. apply I4 in Hs. lia. }
    split; [done|].
    unfold Part000.run, Part000.exec. rewrite Hpc. simpl.
    unfold Lock. rewrite Hm. simpl. rewrite lookup_insert_eq. simpl.
    rewrite lookup_insert_eq. simpl.
    eexists. split; [done|]. simpl. split; [done|].
    by apply map_size_insert_None.
Qed.

(** C10: in [part_000] no program point of a handler offers a send on
    [register]; in every reachable state the dispatcher is outside its
    [register] branch and the branch's log line has never been written; and
    an entry enters the registry only by the handler's own step at line 103,
    the mutex held. *)
Theorem register_channel_never_used :
  (∀ c pc msg pc', Part000.offer c pc = Some (msg, pc') →
     msg = MUnregister c) ∧
  (∀ s, Part000.reachable s →
     Part000.dispatcher s ≠ Part000.DRegLog ∧
     ∀ n, EvLog (LogNewClient n) ∉ effects (Part000.manager s)) ∧
  (∀ s act s' c, Part000.reachable s → Part000.exec act s = Some s' →
     clients (Part000.manager s) !! c = None →
     is_Some (clients (Part000.manager s') !! c) →
     mutex (Part000.manager s) = true ∧
     ∃ u, act = Handler c Plain
          ∧ Part000.handlers s !! c = Some (Part000.HInsert u)).
Proof.
  split; [|split].
  - intros c pc msg pc' H. destruct pc; simpl in H; by simplify_eq.
  - intros s Hr. destruct (p000_register_unused_reachable s Hr) as [H1 H2].
    split; [done|]. intros n Hn. apply (H2 n).
    unfold logs. apply list_elem_of_omap. by exists (EvLog (LogNewClient n)).
  - intros s act s' c Hr He Hn Hs.
    destruct (p000_insert_step _ _ _ _ He Hn Hs) as (u & -> & Hpc & _).
    split; [|by eexists].
    apply (p000_actor_locked s (Handler c Plain)); [done|].
    simpl. by eexists.
Qed.

(** ** The producer *)

(** C3: the asset of a tick holds, converted to [Decimal], the float64
    values [pnl = (newPrice - previousPrice) * amount],
    [margin = balance - pnl] and [margin - lockBalance], where the initial
    [lockBalance] is [100 * amount]; and every asset written to a
    connection, in either variant, is such an asset of the initial
    variables, unchanged. *)
Theorem snapshot_arithmetic :
  (∀ p r,
     let newPrice :=
       F64.mul (previousPrice p) (F64.add (F64.of_Z 1) (delta r)) in
     let pnl := F64.mul (F64.sub newPrice (previousPrice p)) (amount p) in
     let margin := F64.sub (balance p) pnl in
     let a := (tick p r).2 in
     Balance a = NewFromFloat (balance p) ∧
     Pnl a = NewFromFloat pnl ∧
     Margin a = NewFromFloat margin ∧
     CanTransfer a = NewFromFloat (F64.sub margin (lockBalance p))) ∧
  lockBalance producer_init
    = F64.mul (F64.of_Z 100) (amount producer_init) ∧
  (∀ s c a err, Part000.reachable s →
     (c, a, err) ∈ writes (effects (Part000.manager s)) →
     ∃ r, a = (tick producer_init r).2) ∧
  (∀ s c a err, MainGo.reachable s →
     (c, a, err) ∈ writes (effects (MainGo.manager s)) →
     ∃ r, a = (tick producer_init r).2).
Proof.
  split; [by intros p r|]. split; [done|]. split.
  - intros s c a err Hr Hx.
    destruct (p000_producer_inv_reachable s Hr) as (_ & _ & _ & H).
    apply (H c a err Hx).
  - intros s c a err Hr Hx.
    destruct (main_producer_inv_reachable s Hr) as (_ & _ & _ & H).
    apply (H c a err Hx).
Qed.

Lemma simulatePriceUpdate_spec p rs :
  simulatePriceUpdate p rs
  = (p, (λ r, snapshot p (perturb p (delta r))) <$> rs).
Proof.
  induction rs as [|r rs IH]; [done|]. simpl. by rewrite IH.
Qed.

(** C6: an iteration leaves the four variables as they were, so after any
    number of ticks [previousPrice] is still 100.0 and the [i]-th asset is
    the snapshot for [100.0 * (1 + delta r_i)] against 100.0, whatever the
    earlier draws; the same holds for the producer inside either variant. *)
Theorem baseline_is_never_updated :
  (∀ p r, (tick p r).1 = p) ∧
  (∀ rs,
     (simulatePriceUpdate producer_init rs).1 = producer_init ∧
     (simulatePriceUpdate producer_init rs).2
     = (λ r, snapshot producer_init
               (F64.mul (F64.of_Z 100) (F64.add (F64.of_Z 1) (delta r))))
       <$> rs) ∧
  previousPrice producer_init = F64.of_Z 100 ∧
  (∀ s, Part000.reachable s →
     previousPrice (Part000.producer s) = F64.of_Z 100) ∧
  (∀ s, MainGo.reachable s →
     previousPrice (MainGo.producer s) = F64.of_Z 100).
Proof.
  split; [done|]. split; [|split; [done|split]].
  - intros rs. by rewrite simulatePriceUpdate_spec.
  - intros s Hr. destruct (p000_producer_inv_reachable s Hr) as (-> & _). done.
  - intros s Hr. destruct (main_producer_inv_reachable s Hr) as (-> & _). done.
Qed.

(** C7, the claim refuted: for the draw 0.7, and also when the relative
    change is the float64 0.002 itself, the values of the tick are not the
    four expected ones. *)
Lemma end_to_end_not_exact :
  ¬ end_to_end_expected
      (perturb producer_init (delta draw_plus_02_percent))
      (tick producer_init draw_plus_02_percent).2
  ∧ ¬ end_to_end_expected
        (perturb producer_init (F64.lit 2 1000))
        (snapshot producer_init (perturb producer_init (F64.lit 2 1000))).
Proof.
  split; intros (_ & H & _); vm_compute in H; discriminate H.
Qed.

(** C7, as amended: for the draw 0.7 the new price is the float64 100.2,
    the balance 26800.5, and pnl, margin and transferable are the float64
    values 17.76000000000025, 26782.739999999998 and 17902.739999999998,
    each within 10^-11 of 17.76, 26782.74 and 17902.74. *)
Theorem end_to_end_float64 :
  let a := (tick producer_init draw_plus_02_percent).2 in
  perturb producer_init (delta draw_plus_02_percent) = F64.lit 1002 10 ∧
  value (Balance a) = F64.lit 268005 10 ∧
  value (Pnl a) = S754_finite false 4998995586381321 (-48) ∧
  value (Margin a) = S754_finite false 7361983513425346 (-38) ∧
  value (CanTransfer a) = S754_finite false 4921067699762626 (-38) ∧
  F64.within (value (Pnl a)) 1776 100 (10 ^ 11) = true ∧
  F64.within (value (Margin a)) 2678274 100 (10 ^ 11) = true ∧
  F64.within (value (CanTransfer a)) 1790274 100 (10 ^ 11) = true ∧
  value (Pnl a) ≠ F64.lit 1776 100 ∧
  value (Margin a) ≠ F64.lit 2678274 100 ∧
  value (CanTransfer a) ≠ F64.lit 1790274 100.
Proof. vm_compute. repeat split; discriminate. Qed.

(** ** The broadcast branch, run to its end *)

Lemma p000_run_app acts1 acts2 s :
  Part000.run (acts1 ++ acts2) s = Part000.run acts1 s ≫= Part000.run acts2.
Proof.
  revert s. induction acts1 as [|a acts IH]; intros s; simpl; [done|].
  destruct (Part000.exec a s); simpl; [apply IH | done].
Qed.

Lemma p000_loop_runs werr a todo s :
  Part000.dispatcher s = Part000.DBcastLoop a todo →
  Part000.run ((λ c, Dispatcher (WriteJSON (werr c))) <$> todo) s
  = Some (Part000.set_dispatcher (Part000.DBcastLoop a [])
            (Part000.set_manager
               (broadcast_pass Part000.write_error werr a todo
                  (Part000.manager s)) s)).
Proof.
  revert s. induction todo as [|c todo IH]; intros s Hd; simpl.
  - destruct s; simpl in *. by subst.
  - unfold Part000.start. rewrite Hd. simpl.
    rewrite IH by done. done.
Qed.

(** In [part_000], a broadcast received while the mutex is free runs
    through: the mutex is taken, the loop runs over the registry, the mutex
    is released and the dispatcher is back at its [select]. *)
Lemma p000_broadcast_branch werr a order s :
  Part000.dispatcher s = Part000.DBcastLock a →
  mutex (Part000.manager s) = false →
  range_order (Part000.manager s) order →
  ∃ m s', Lock (Part000.manager s) = Some m
    ∧ Part000.run (pass_actions werr order) s = Some s'
    ∧ Part000.dispatcher s' = Part000.DSelect
    ∧ Part000.manager s'
      = Unlock (broadcast_pass Part000.write_error werr a order m).
Proof.
  intros Hd Hm Hro. unfold pass_actions.
  destruct s as [[cl mx ef] d h pp p]. simpl in Hd, Hm, Hro. subst d mx.
  rewrite p000_run_app. simpl.
  unfold Part000.start at 1. simpl.
  rewrite decide_True by done. simpl.
  rewrite p000_run_app. erewrite p000_loop_runs by done. simpl.
  by eexists _, _.
Qed.

Lemma main_loop_runs werr a todo s :
  MainGo.dispatcher s = MainGo.DBcastLoop a todo →
  MainGo.run ((λ c, Dispatcher (WriteJSON (werr c))) <$> todo) s
  = Some (MainGo.set_dispatcher (MainGo.DBcastLoop a [])
            (MainGo.set_manager
               (broadcast_pass MainGo.write_error werr a todo
                  (MainGo.manager s)) s)).
Proof.
  revert s. induction todo as [|c todo IH]; intros s Hd; simpl.
  - destruct s; simpl in *. by subst.
  - unfold MainGo.start. rewrite Hd. simpl.
    rewrite IH by done. done.
Qed.

(** The same in [main.go]; there the mutex is free only as long as nothing
    has been unregistered. *)
Lemma main_broadcast_branch werr a order s :
  MainGo.dispatcher s = MainGo.DBcastLock a →
  mutex (MainGo.manager s) = false →
  range_order (MainGo.manager s) order →
  ∃ m s', Lock (MainGo.manager s) = Some m
    ∧ MainGo.run (pass_actions werr order) s = Some s'
    ∧ MainGo.dispatcher s' = MainGo.DSelect
    ∧ MainGo.manager s'
      = Unlock (broadcast_pass MainGo.write_error werr a order m).
Proof.
  intros Hd Hm Hro. unfold pass_actions.
  destruct s as [[cl mx ef] d h pp p]. simpl in Hd, Hm, Hro. subst d mx.
  rewrite main_run_app. simpl.
  unfold MainGo.start at 1. simpl.
  rewrite decide_True by done. simpl.
  rewrite main_run_app. erewrite main_loop_runs by done. simpl.
  by eexists _, _.
Qed.

(** ** Instances *)

(** C4, the claim refuted: in [part_000] the connection of
    [part000_session] has been closed twice, by its handler's deferred call
    and by the dispatcher. *)
Lemma part000_closes_twice :
  ¬ (∀ s c, Part000.reachable s →
       times c (all_closes (effects (Part000.manager s))) ≤ 1).
Proof.
  intros H.
  assert (Hr : Part000.reachable part000_after_session).
  { exists part000_session. vm_compute. reflexivity. }
  specialize (H part000_after_session 1 Hr). vm_compute in H. lia.
Qed.

Lemma broadcast_fanout_witness :
  let m := mkManager (<[1 := true]> (<[2 := true]> (<[3 := true]> ∅))) true [] in
  let a := (tick producer_init draw_plus_02_percent).2 in
  let m' := broadcast_pass MainGo.write_error (λ c, bool_decide (c = 2)) a
              [3; 1; 2] m in
  range_order m [3; 1; 2] ∧ size (clients m') = 3 - 1.
Proof.
  intros m a m'.
  assert (H : range_order m [3; 1; 2]).
  { apply (bool_decide_unpack _). vm_compute. exact I. }
  split; [exact H|].
  exact (proj2 (proj2 (proj2 (proj2
    (broadcast_fanout MainGo.write_error (λ c, bool_decide (c = 2)) a
       [3; 1; 2] m H))))).
Defined.

Lemma registry_consistency_witness :
  1 ∈ closes ByHub (effects (Part000.manager part000_after_session)) ∧
  clients (Part000.manager part000_after_session) !! 1 = None.
Proof.
  assert (Hr : Part000.reachable part000_after_session).
  { exists part000_session. vm_compute. reflexivity. }
  assert (Hc : 1 ∈ closes ByHub (effects (Part000.manager part000_after_session))).
  { vm_compute. apply list_elem_of_here. }
  split; [exact Hc|].
  exact (proj1 (proj2 (proj1 registry_consistency part000_after_session Hr)) 1 Hc).
Defined.

Lemma closes_once_per_closer_witness :
  times 1 (closes ByHub (effects (Part000.manager part000_after_session))) ≤ 1.
Proof.
  assert (Hr : Part000.reachable part000_after_session).
  { exists part000_session. vm_compute. reflexivity. }
  exact (proj1 (proj1 closes_once_per_closer part000_after_session 1 Hr)).
Defined.

Lemma snapshot_arithmetic_witness :
  ∃ r, (tick producer_init draw_plus_02_percent).2 = (tick producer_init r).2.
Proof.
  assert (Hr : MainGo.reachable main_in_broadcast).
  { exists main_one_broadcast. vm_compute. reflexivity. }
  assert (Hw : (2, (tick producer_init draw_plus_02_percent).2, true)
               ∈ writes (effects (MainGo.manager main_in_broadcast))).
  { vm_compute. apply list_elem_of_here. }
  exact (proj2 (proj2 (proj2 snapshot_arithmetic)) main_in_broadcast 2 _ true Hr Hw).
Defined.

Lemma baseline_is_never_updated_witness :
  previousPrice (Part000.producer part000_in_pass) = F64.of_Z 100.
Proof.
  assert (Hr : Part000.reachable part000_in_pass).
  { exists part000_during_pass. vm_compute. reflexivity. }
  exact (proj1 (proj2 (proj2 (proj2 baseline_is_never_updated))) part000_in_pass Hr).
Defined.

Lemma broadcast_serialized_witness :
  Part000.pass_in_progress (Part000.dispatcher part000_in_pass) = true ∧
  mutex (Part000.manager part000_in_pass) = true ∧
  Part000.handlers part000_in_pass !! 2 = Some (Part000.HLock "u2").
Proof.
  assert (Hr : Part000.reachable part000_in_pass).
  { exists part000_during_pass. vm_compute. reflexivity. }
  assert (Hp : Part000.pass_in_progress (Part000.dispatcher part000_in_pass) = true).
  { vm_compute. reflexivity. }
  assert (He : Part000.exec (Dispatcher (WriteJSON false)) part000_in_pass
               = Some (default Part000.init
                         (Part000.exec (Dispatcher (WriteJSON false)) part000_in_pass))).
  { vm_compute. reflexivity. }
  split; [exact Hp|]. split.
  - exact (proj1 (proj1 (proj2
      (proj1 broadcast_serialized part000_in_pass _ _ Hr He)) Hp)).
  - vm_compute. reflexivity.
Defined.

Lemma uuid_read_decides_registration_witness :
  (1, None) ∈ uuid_reads (effects (Part000.manager part000_after_refused)) ∧
  Part000.handlers part000_after_refused !! 1 = Some Part000.HAborted ∧
  clients (Part000.manager part000_after_refused) !! 1 = None.
Proof.
  assert (Hr : Part000.reachable part000_after_refused).
  { exists part000_refused. vm_compute. reflexivity. }
  assert (Hx : (1, None)
               ∈ uuid_reads (effects (Part000.manager part000_after_refused))).
  { vm_compute. apply list_elem_of_here. }
  destruct (proj1 (uuid_read_decides_registration part000_after_refused 1 Hr) Hx)
    as (H1 & _ & H2 & _).
  exact (conj Hx (conj H1 H2)).
Defined.

Lemma register_channel_never_used_witness :
  Part000.dispatcher part000_in_pass ≠ Part000.DRegLog.
Proof.
  assert (Hr : Part000.reachable part000_in_pass).
  { exists part000_during_pass. vm_compute. reflexivity. }
  exact (proj1 (proj1 (proj2 register_channel_never_used) part000_in_pass Hr)).
Defined.
